(** * Hamiltonian path finder (src/main.py): graph, validator and
      backtracking search, embedded shallowly and verified.

    Python integers are [Z]; a Python [list] is a Rocq [list] indexed
    through [py_get]/[py_set], which implement Python's index rule
    (negative indices count from the end, anything else out of range
    raises IndexError); a Python [set] of integers is the duplicate-free
    list of its members in iteration order. *)

From Stdlib Require Import DecimalString DecimalZ.
From stdpp Require Import list numbers sorting strings pretty.

Open Scope Z_scope.

(** ** Results of running Python code *)

Inductive exn := IndexError.

(** [Ok a]: the call returned [a]; [Raise e]: it raised [e];
    [OutOfFuel]: the recursion budget of the model was exhausted (the
    budget only bounds the depth of nested [_backtrack] calls). *)
Inductive res (A : Type) : Type :=
| Ok (a : A)
| Raise (e : exn)
| OutOfFuel.
Arguments Ok {A} a.
Arguments Raise {A} e.
Arguments OutOfFuel {A}.

#[global] Instance res_ret : MRet res := λ A a, Ok a.
#[global] Instance res_bind : MBind res := λ A B f m,
  match m with
  | Ok a => f a
  | Raise e => Raise e
  | OutOfFuel => OutOfFuel
  end.

(** ** Python list indexing *)

Definition py_index (len : nat) (i : Z) : option nat :=
  if bool_decide (0 ≤ i < Z.of_nat len) then Some (Z.to_nat i)
  else if bool_decide (- Z.of_nat len ≤ i < 0) then Some (Z.to_nat (Z.of_nat len + i))
  else None.

(** [l[i]] *)
Definition py_get {A} (l : list A) (i : Z) : res A :=
  match py_index (length l) i with
  | Some k => match l !! k with Some x => Ok x | None => Raise IndexError end
  | None => Raise IndexError
  end.

(** [l[i] = x] *)
Definition py_set {A} (l : list A) (i : Z) (x : A) : res (list A) :=
  match py_index (length l) i with
  | Some k => Ok (<[k:=x]> l)
  | None => Raise IndexError
  end.

(** [l.pop()] : the list without its last element *)
Definition py_pop {A} (l : list A) : res (list A) :=
  match l with
  | [] => Raise IndexError
  | _ => Ok (removelast l)
  end.

(** [range(k)] *)
Definition py_range (k : Z) : list Z := seqZ 0 k.

(** ** class Graph *)

Record Graph := mkGraph {
  n : Z;
  directed : bool;
  adj : list (list Z)
}.

(** [Graph.__init__]: [[set() for _ in range(n)]]. *)
Definition Graph_init (n0 : Z) (d : bool) : Graph :=
  mkGraph n0 d (replicate (Z.to_nat n0) []).

(** *** Python sets

    The iteration order of a [set] is not fixed by the language: it
    depends on the hash table and on the history of insertions.  The
    position a new member takes (and any reshuffle a resize causes) is
    therefore a parameter [set_insert], only required to produce the old
    members plus the new one. *)
Section PySet.
Variable set_insert : Z → list Z → list Z.
Hypothesis set_insert_perm :
  ∀ x s, x ∉ s → set_insert x s ≡ₚ x :: s.

(** [s.add(x)] *)
Definition set_add (x : Z) (s : list Z) : list Z :=
  if bool_decide (x ∈ s) then s else set_insert x s.

(** [Graph.add_edge] *)
Definition add_edge (g : Graph) (u v : Z) : res Graph :=
  if bool_decide (u = v) then Ok g
  else if negb (bool_decide (0 ≤ u < n g) && bool_decide (0 ≤ v < n g))
  then Ok g
  else
    su ← py_get (adj g) u;
    adj1 ← py_set (adj g) u (set_add v su);
    if negb (directed g) then
      sv ← py_get adj1 v;
      adj2 ← py_set adj1 v (set_add u sv);
      Ok (mkGraph (n g) (directed g) adj2)
    else Ok (mkGraph (n g) (directed g) adj1).

(** A sequence of [add_edge] calls on the same graph object. *)
Fixpoint add_edges (g : Graph) (es : list (Z * Z)) : res Graph :=
  match es with
  | [] => Ok g
  | (u, v) :: es' => g' ← add_edge g u v; add_edges g' es'
  end.

(** The adjacency sets [add_edge] leaves behind when it accepts the
    edge. *)
Definition added (g : Graph) (u v : Z) : list (list Z) :=
  let adj1 := alter (set_add v) (Z.to_nat u) (adj g) in
  if directed g then adj1
  else alter (set_add u) (Z.to_nat v) adj1.
End PySet.

(** *** [sorted(iterable, key=...)]

    Python computes the key of every element first and then sorts the
    decorated elements with a stable sort.  The result of a stable sort is
    determined by its input, so a stable insertion sort stands for it. *)
Fixpoint insert_by_key (p : nat * Z) (l : list (nat * Z)) : list (nat * Z) :=
  match l with
  | [] => [p]
  | q :: l' => if (p.1 <=? q.1)%nat then p :: l else q :: insert_by_key p l'
  end.

Definition sort_by_key (l : list (nat * Z)) : list (nat * Z) :=
  foldr insert_by_key [] l.

(** The keys [key(x)] of all elements, left to right; the first key that
    raises aborts the call. *)
Fixpoint keys_of (key : Z → res nat) (s : list Z) : res (list (nat * Z)) :=
  match s with
  | [] => Ok []
  | x :: s' => k ← key x; ks ← keys_of key s'; Ok ((k, x) :: ks)
  end.

Definition sorted (s : list Z) (key : Z → res nat) : res (list Z) :=
  ks ← keys_of key s; Ok ((sort_by_key ks).*2).

(** [len(self.adj[x])] *)
Definition degree (g : Graph) (x : Z) : res nat :=
  s ← py_get (adj g) x; Ok (length s).

(** [Graph.neighbors] *)
Definition neighbors (g : Graph) (u : Z) : res (list Z) :=
  if negb (bool_decide (0 ≤ u < n g)) then Ok []
  else s ← py_get (adj g) u; sorted s (degree g).

(** ** is_hamiltonian_path *)

(** [set(a) != set(b)] on the members of two lists. *)
Definition set_neq (a b : list Z) : bool :=
  negb (forallb (λ x, bool_decide (x ∈ b)) a
        && forallb (λ x, bool_decide (x ∈ a)) b).

(** The loop [for i in range(len(path) - 1)] of the validator, over the
    list of the indices still to visit; [Ok false] is the early
    [return False], [Ok true] is falling out of the loop. *)
Fixpoint check_edges (g : Graph) (path : list Z) (idxs : list Z) : res bool :=
  match idxs with
  | [] => Ok true
  | i :: idxs' =>
      u ← py_get path i;
      v ← py_get path (i + 1);
      if directed g then
        nbs ← neighbors g u;
        if negb (bool_decide (v ∈ nbs)) then Ok false
        else check_edges g path idxs'
      else
        nbs ← neighbors g u;
        if negb (bool_decide (v ∈ nbs)) then Ok false
        else check_edges g path idxs'
  end.

Definition is_hamiltonian_path (g : Graph) (path : list Z) : res bool :=
  if negb (bool_decide (Z.of_nat (length path) = n g)) then Ok false
  else if set_neq path (py_range (n g)) then Ok false
  else check_edges g path (py_range (Z.of_nat (length path) - 1)).

(** ** The backtracking search *)

(** The mutable objects a call of [_backtrack] holds references to: the
    graph, the working [path] and the [visited] markers. Every call
    receives the current contents and hands back the contents it leaves
    behind. *)
Record state := mkState {
  st_g : Graph;
  st_path : list Z;
  st_visited : list bool
}.

(** The loop [for neighbor in g.neighbors(current)] of [_backtrack];
    [rec] is the recursive call. *)
Fixpoint for_neighbors (rec : Z → state → res (option (list Z) * state))
    (nbs : list Z) (st : state) : res (option (list Z) * state) :=
  match nbs with
  | [] => Ok (None, st)
  | neighbor :: rest =>
      seen ← py_get (st_visited st) neighbor;
      if negb seen then
        vis1 ← py_set (st_visited st) neighbor true;
        let st1 := mkState (st_g st) (st_path st ++ [neighbor]) vis1 in
        '(result, st2) ← rec neighbor st1;
        match result with
        | Some p => Ok (Some p, st2)
        | None =>
            path3 ← py_pop (st_path st2);
            vis3 ← py_set (st_visited st2) neighbor false;
            for_neighbors rec rest (mkState (st_g st2) path3 vis3)
        end
      else for_neighbors rec rest st
  end.

(** [_backtrack]; [fuel] bounds the depth of nested calls. The returned
    [path.copy()] is the value of the path at that moment. *)
Fixpoint _backtrack (fuel : nat) (current : Z) (st : state)
    : res (option (list Z) * state) :=
  match fuel with
  | O => OutOfFuel
  | S fuel' =>
      if bool_decide (Z.of_nat (length (st_path st)) = n (st_g st))
      then Ok (Some (st_path st), st)
      else
        nbs ← neighbors (st_g st) current;
        for_neighbors (_backtrack fuel') nbs st
  end.

(** The loop [for start in range(n)] of [find_hamiltonian_path]. *)
Fixpoint try_starts (fuel : nat) (starts : list Z) (g : Graph)
    : res (option (list Z) * Graph) :=
  match starts with
  | [] => Ok (None, g)
  | start :: rest =>
      let visited := replicate (Z.to_nat (n g)) false in
      let path := [] in
      visited ← py_set visited start true;
      let path := path ++ [start] in
      '(result, st) ← _backtrack fuel start (mkState g path visited);
      match result with
      | Some p => Ok (Some p, st_g st)
      | None => try_starts fuel rest (st_g st)
      end
  end.

(** [find_hamiltonian_path]; the graph object is returned next to the
    result, as the call leaves it. *)
Definition find_hamiltonian_path (fuel : nat) (g : Graph)
    : res (option (list Z) * Graph) :=
  if bool_decide (n g = 0) then Ok (Some [], g)
  else if bool_decide (n g = 1) then Ok (Some [0], g)
  else try_starts fuel (py_range (n g)) g.

(** An insertion policy: new members go last (insertion order). *)
Definition ins_end (x : Z) (s : list Z) : list Z := s ++ [x].

(** ** Specification-level notions *)

(** [v] is a member of [adj[u]]. *)
Definition adjacent (g : Graph) (u v : Z) : Prop :=
  0 ≤ u ∧ ∃ s, adj g !! Z.to_nat u = Some s ∧ v ∈ s.

(** The size of the adjacency set of [x]. *)
Definition deg (g : Graph) (x : Z) : nat :=
  length (default [] (adj g !! Z.to_nat x)).

(** [p] is a Hamiltonian path of [g]. *)
Definition hamiltonian (g : Graph) (p : list Z) : Prop :=
  Z.of_nat (length p) = n g
  ∧ (∀ v, v ∈ p ↔ 0 ≤ v < n g)
  ∧ (∀ i u v, p !! i = Some u → p !! S i = Some v → adjacent g u v).

(** What the constructor and [add_edge] establish and the rest of the
    code relies on: one adjacency set per vertex, holding vertex
    identifiers only. *)
Record wf (g : Graph) : Prop := {
  wf_len : length (adj g) = Z.to_nat (n g);
  wf_range : ∀ i s v, adj g !! i = Some s → v ∈ s → 0 ≤ v < n g
}.

(** The full data invariant of a graph. *)
Record graph_inv (g : Graph) : Prop := {
  inv_wf : wf g;
  inv_nodup : ∀ i s, adj g !! i = Some s → NoDup s;
  inv_noloop : ∀ u, ¬ adjacent g u u;
  inv_sym : directed g = false → ∀ u v, adjacent g u v → adjacent g v u
}.

(** The decorated list pairs every element with its key. *)
Definition decorated (f : Z → nat) (l : list (nat * Z)) : Prop :=
  Forall (λ p, p.1 = f p.2) l.

(** The order [sorted] puts the decorated elements in. *)
Definition key_le (p q : nat * Z) : Prop := (p.1 ≤ q.1)%nat.

(** What a call may do to the state it was given: the graph is the same
    afterwards, and after a failure so are [path] and [visited]. *)
Definition undone (st : state) (out : res (option (list Z) * state)) : Prop :=
  ∀ r st', out = Ok (r, st') → st_g st' = st_g st ∧ (r = None → st' = st).

(** Every step of [p] follows an edge of [g]. *)
Definition walk (g : Graph) (p : list Z) : Prop :=
  ∀ i u v, p !! i = Some u → p !! S i = Some v → adjacent g u v.

(** [visited] has one marker per vertex, a marker is set exactly for the
    vertices on [path], [path] is a repetition-free walk of [g] ending in
    the current vertex. *)
Record search_inv (c : Z) (st : state) : Prop := {
  si_wf : wf (st_g st);
  si_len : length (st_visited st) = Z.to_nat (n (st_g st));
  si_vis : ∀ v, 0 ≤ v < n (st_g st) →
    (st_visited st !! Z.to_nat v = Some true ↔ v ∈ st_path st);
  si_range : ∀ v, v ∈ st_path st → 0 ≤ v < n (st_g st);
  si_nodup : NoDup (st_path st);
  si_walk : walk (st_g st) (st_path st);
  si_last : last (st_path st) = Some c
}.

(** The tentative move: mark [v] and append it. *)
Definition push (st : state) (v : Z) : state :=
  mkState (st_g st) (st_path st ++ [v])
          (<[Z.to_nat v:=true]> (st_visited st)).

(** What the outcome of a call says about the Hamiltonian paths that
    extend the working path. *)
Definition verdict (g : Graph) (path : list Z) (r : option (list Z)) : Prop :=
  match r with
  | Some p => hamiltonian g p ∧ path `prefix_of` p
  | None => ∀ p, hamiltonian g p → ¬ path `prefix_of` p
  end.

(** The outcome of the loop over the start vertices: a failure rules out
    every start in the list; a success is a Hamiltonian path from the
    first start in the list that begins one. *)
Definition starts_verdict (g : Graph) (starts : list Z)
    (r : option (list Z)) : Prop :=
  match r with
  | Some p => hamiltonian g p ∧ ∃ i s, starts !! i = Some s ∧ head p = Some s
      ∧ ∀ j s' q, (j < i)%nat → starts !! j = Some s' →
          hamiltonian g q → head q ≠ Some s'
  | None => ∀ s q, s ∈ starts → hamiltonian g q → head q ≠ Some s
  end.

(** [b] is a member of the [i]-th adjacency set. *)
Definition member (adjs : list (list Z)) (i : nat) (b : Z) : Prop :=
  ∃ s, adjs !! i = Some s ∧ b ∈ s.

(** A boolean test of [wf]. *)
Definition wf_b (g : Graph) : bool :=
  bool_decide (length (adj g) = Z.to_nat (n g))
  && forallb (forallb (λ v, bool_decide (0 ≤ v < n g))) (adj g).

(** ** Example graphs and states *)

(** The undirected path 0 - 1 - 2. *)
Definition path3 : Graph := mkGraph 3 false [[1]; [0; 2]; [1]].

(** Two disjoint edges 0 - 1 and 2 - 3. *)
Definition two_edges : Graph := mkGraph 4 false [[1]; [0]; [3]; [2]].

(** The search on [two_edges] after choosing the start vertex 0. *)
Definition stuck : state := mkState two_edges [0] [true; false; false; false].

(** A star with centre 0 and an extra edge 1 - 2. *)
Definition star : Graph := mkGraph 4 false [[3; 1; 2]; [0; 2]; [0; 1]; [0]].

(** The search on [path3] after choosing the start vertex 1. *)
Definition started : state := mkState path3 [1] [false; true; false].

(** The directed path 2 -> 0 -> 1: vertex 2 is the only possible
    start. *)
Definition chain : Graph := mkGraph 3 true [[1]; []; [0]].

(** ** Notions for the further properties *)

(** The adjacency a list of [add_edge] calls asks for on a graph with
    [n0] vertices: self-loops and out-of-range endpoints excluded, both
    directions when the graph is undirected. *)
Definition edge_of (n0 : Z) (d : bool) (es : list (Z * Z)) (a b : Z) : Prop :=
  ∃ u v, (u, v) ∈ es ∧ u ≠ v ∧ 0 ≤ u < n0 ∧ 0 ≤ v < n0
    ∧ ((a = u ∧ b = v) ∨ (d = false ∧ a = v ∧ b = u)).

(** Two graphs with the same vertices and the same adjacency; the
    iteration order of their sets may differ. *)
Definition same_edges (g1 g2 : Graph) : Prop :=
  n g1 = n g2 ∧ ∀ a b, adjacent g1 a b ↔ adjacent g2 a b.

(** What a successful call leaves behind. *)
Definition completed (st : state) (out : res (option (list Z) * state)) : Prop :=
  ∀ p st', out = Ok (Some p, st') →
    st_path st' = p ∧ st_path st `prefix_of` p
    ∧ Z.of_nat (length p) = n (st_g st).

(** ** visualize_graph.py: the edges handed to the plot *)

(** The inner loop [for v in g.neighbors(u)] of [visualize_graph]: the
    calls [nx_graph.add_edge(u, v)] it makes, in order. *)
Fixpoint nx_edges_of (g : Graph) (u : Z) (nbs : list Z) : list (Z * Z) :=
  match nbs with
  | [] => []
  | v :: rest =>
      if directed g || bool_decide (u < v) then (u, v) :: nx_edges_of g u rest
      else nx_edges_of g u rest
  end.

(** The outer loop [for u in range(g.n)]. *)
Fixpoint nx_edges (g : Graph) (us : list Z) : res (list (Z * Z)) :=
  match us with
  | [] => Ok []
  | u :: rest =>
      nbs ← neighbors g u;
      later ← nx_edges g rest;
      Ok (nx_edges_of g u nbs ++ later)
  end.

(** All [add_edge] calls [visualize_graph] makes on the plotted graph. *)
Definition drawn_edges (g : Graph) : res (list (Z * Z)) :=
  nx_edges g (py_range (n g)).

(** [[(path[i], path[i + 1]) for i in range(len(path) - 1)]] *)
Fixpoint consecutive (path : list Z) (idxs : list Z) : res (list (Z * Z)) :=
  match idxs with
  | [] => Ok []
  | i :: idxs' =>
      u ← py_get path i;
      v ← py_get path (i + 1);
      later ← consecutive path idxs';
      Ok ((u, v) :: later)
  end.

(** [path_edges] of [visualize_graph]; [path] may be [None]. *)
Definition path_edges (path : option (list Z)) : res (list (Z * Z)) :=
  match path with
  | None => Ok []
  | Some p =>
      if negb (bool_decide (p = [])) && bool_decide (1 < length p)%nat
      then consecutive p (py_range (Z.of_nat (length p) - 1))
      else Ok []
  end.

(** [sum(len(g.adj[u]) for u in range(g.n))] *)
Fixpoint degree_sum (g : Graph) (us : list Z) : res Z :=
  match us with
  | [] => Ok 0
  | u :: rest => d ← degree g u; later ← degree_sum g rest; Ok (Z.of_nat d + later)
  end.

(** The number of edges [exemplo_visualizacao] prints:
    [sum(...) // 2 if not g.directed else sum(...)]. *)
Definition edge_count (g : Graph) : res Z :=
  if negb (directed g) then
    total ← degree_sum g (py_range (n g)); Ok (total `div` 2)
  else degree_sum g (py_range (n g)).

(** The neighbour list of [u], empty where [neighbors] fails. *)
Definition nbrs (g : Graph) (u : Z) : list Z :=
  match neighbors g u with Ok l => l | _ => [] end.

(** Every pair (vertex, neighbour), vertex by vertex. *)
Fixpoint all_pairs (g : Graph) (us : list Z) : list (Z * Z) :=
  match us with
  | [] => []
  | u :: rest => ((λ v, (u, v)) <$> nbrs g u) ++ all_pairs g rest
  end.

(** ** main.py: the command-line layer *)

(** The exceptions of the command-line layer, with the message the code
    gives them; [CoreError] is an exception of the core passing
    through. *)
Inductive cli_exn :=
| FileNotFoundError (msg : string)
| ValueError (msg : string)
| SystemExit (code : Z)
| CoreError (e : exn).

Inductive cli_res (A : Type) : Type :=
| Returns (a : A)
| Throws (e : cli_exn)
| NoFuel.
Arguments Returns {A} a.
Arguments Throws {A} e.
Arguments NoFuel {A}.

#[global] Instance cli_ret : MRet cli_res := λ A a, Returns a.
#[global] Instance cli_bind : MBind cli_res := λ A B f m,
  match m with
  | Returns a => f a
  | Throws e => Throws e
  | NoFuel => NoFuel
  end.

(** A call into the core. *)
Definition lift {A} (r : res A) : cli_res A :=
  match r with
  | Ok a => Returns a
  | Raise e => Throws (CoreError e)
  | OutOfFuel => NoFuel
  end.

(** A line printed on standard output or on standard error. *)
Inductive event :=
| Stdout (line : string)
| Stderr (line : string).

(** The parsed command line ([argparse] is outside the model). *)
Record Args := mkArgs {
  arg_file : option string;
  arg_directed : bool;
  arg_undirected : bool;
  arg_self_test : bool
}.

(** The built-ins [str.strip], [str.split] and [int] are parameters:
    [py_int] gives [None] where [int] raises ValueError. The file system
    is a parameter too: [fs path] is what [readlines] returns, [None]
    when the file does not exist. *)
Section CommandLine.
Variable ins : Z → list Z → list Z.
Variable py_strip : string → string.
Variable py_split : string → list string.
Variable py_int : string → option Z.
Variable fs : string → option (list string).

(** [a, b = map(int, tokens)]: any other number of tokens than two, or a
    token [int] rejects, raises ValueError ([None]). *)
Definition unpack_ints (tokens : list string) : option (Z * Z) :=
  match tokens with
  | [a; b] =>
      match py_int a, py_int b with
      | Some x, Some y => Some (x, y)
      | _, _ => None
      end
  | _ => None
  end.

(** The loop [for i in range(1, min(m + 1, len(lines)))] of
    [_read_graph_from_file], over the indices still to visit. *)
Fixpoint read_edge_lines (lines : list string) (g : Graph) (idxs : list Z)
    : cli_res Graph :=
  match idxs with
  | [] => Returns g
  | i :: idxs' =>
      l ← lift (py_get lines i);
      let line := py_strip l in
      if bool_decide (line = "") then read_edge_lines lines g idxs'
      else
        match unpack_ints (py_split line) with
        | Some (u, v) =>
            g' ← lift (add_edge ins g u v);
            read_edge_lines lines g' idxs'
        | None =>
            Throws (ValueError ("Formato inválido na linha "
                                +:+ pretty (i + 1) +:+ ". Use: u v"))
        end
  end.

(** [_read_graph_from_file] *)
Definition _read_graph_from_file (filepath : string) (directed : bool)
    : cli_res Graph :=
  match fs filepath with
  | None =>
      Throws (FileNotFoundError
                ("Arquivo '" +:+ filepath +:+ "' não encontrado"))
  | Some lines =>
      if bool_decide (length lines < 1)%nat
      then Throws (ValueError "Arquivo vazio")
      else
        first ← lift (py_get lines 0);
        match unpack_ints (py_split (py_strip first)) with
        | None =>
            Throws (ValueError "Formato inválido na primeira linha. Use: n m")
        | Some (n0, m) =>
            read_edge_lines lines (Graph_init n0 directed)
              (seqZ 1 (Z.min (m + 1) (Z.of_nat (length lines)) - 1))
        end
  end.

(** What [_self_test] and [_demo_examples] print and how they end does
    not depend on the command line; [main] only runs them. *)
Variable self_test_run : list event * cli_res unit.
Variable demo_run : list event * cli_res unit.

(** [main], from the parsed arguments on; [fuel] is the recursion budget
    of the search. *)
Definition main (fuel : nat) (args : Args) : list event * cli_res unit :=
  if arg_self_test args then self_test_run
  else
    match arg_file args with
    | Some filepath =>
        if bool_decide (filepath = "") then demo_run
        else if arg_directed args && arg_undirected args then
          ([Stderr ("Erro: Não é possível especificar --directed e "
                    +:+ "--undirected simultaneamente")],
           Throws (SystemExit 1))
        else if negb (arg_directed args) && negb (arg_undirected args) then
          ([Stderr "Erro: Especifique --directed ou --undirected (não ambos)"],
           Throws (SystemExit 1))
        else
          let directed := arg_directed args in
          match _read_graph_from_file filepath directed with
          | Throws (FileNotFoundError msg)
          | Throws (ValueError msg) =>
              ([Stderr ("Erro: " +:+ msg)], Throws (SystemExit 1))
          | Throws e => ([], Throws e)
          | NoFuel => ([], NoFuel)
          | Returns g =>
              match find_hamiltonian_path fuel g with
              | Ok (None, _) => ([Stdout "NO HAMILTONIAN PATH"], Returns tt)
              | Ok (Some path, _) =>
                  ([Stdout (String.concat " " (pretty <$> path))], Returns tt)
              | Raise e => ([], Throws (CoreError e))
              | OutOfFuel => ([], NoFuel)
              end
          end
    | None => demo_run
    end.

(** One line of the edge section, read on its own: [None] if the line
    is skipped as blank or [int] rejects it, the edge otherwise. *)
Definition edge_of_line (l : string) : option (Z * Z) :=
  if bool_decide (py_strip l = "") then None
  else unpack_ints (py_split (py_strip l)).

(** A line the loop gets past: blank, or two integers. *)
Definition readable (l : string) : Prop :=
  py_strip l = "" ∨ is_Some (unpack_ints (py_split (py_strip l))).

(** The loop over the edge lines as a recursion over the lines
    themselves; [lineno] is the number of the first of them, counting
    the lines of the file from 1. *)
Fixpoint load_lines (g : Graph) (lineno : Z) (ls : list string)
    : cli_res Graph :=
  match ls with
  | [] => Returns g
  | l :: ls' =>
      if bool_decide (py_strip l = "") then load_lines g (lineno + 1) ls'
      else
        match unpack_ints (py_split (py_strip l)) with
        | Some (u, v) =>
            g' ← lift (add_edge ins g u v);
            load_lines g' (lineno + 1) ls'
        | None =>
            Throws (ValueError ("Formato inválido na linha "
                                +:+ pretty lineno +:+ ". Use: u v"))
        end
  end.
End CommandLine.

(** Instances of the built-ins on plain decimal, blank-separated
    text. *)
Fixpoint lstrip (s : string) : string :=
  match s with
  | String a s' => if Ascii.is_space a then lstrip s' else s
  | EmptyString => EmptyString
  end.

Definition strip_spaces (s : string) : string :=
  String.rev (lstrip (String.rev (lstrip s))).

Definition int_decimal (s : string) : option Z :=
  Z.of_int <$> NilZero.int_of_string s.

(** A file system with two well-formed files, one with a bad line and
    one empty file. *)
Definition files (path : string) : option (list string) :=
  if bool_decide (path = "g.txt")
  then Some ["3 2"; "0 1"; ""; "1 2"; "this line is never read"]
  else if bool_decide (path = "bad.txt")
  then Some ["3 5"; "0 1"; "1 x"]
  else if bool_decide (path = "chain.txt")
  then Some ["3 2"; "2 0"; "0 1"]
  else if bool_decide (path = "empty.txt") then Some []
  else None.


(** A command line: [--directed --file chain.txt]. *)
Definition cli_chain : Args := mkArgs (Some "chain.txt") true false false.

(** * Lemmas *)

(** ** Python indexing *)

Lemma py_index_nonneg len i :
  0 ≤ i < Z.of_nat len → py_index len i = Some (Z.to_nat i).
Proof. intros H. unfold py_index. by rewrite bool_decide_eq_true_2. Qed.

Lemma py_index_Some len i k :
  py_index len i = Some k → (k < len)%nat ∧ (0 ≤ i → k = Z.to_nat i).
Proof.
  unfold py_index. repeat case_bool_decide; intros [=]; subst; lia.
Qed.

Lemma py_get_lookup {A} (l : list A) i x :
  0 ≤ i → l !! Z.to_nat i = Some x → py_get l i = Ok x.
Proof.
  intros Hi Hx. unfold py_get.
  rewrite py_index_nonneg; [by rewrite Hx|].
  apply lookup_lt_Some in Hx. lia.
Qed.

Lemma py_get_Ok {A} (l : list A) i x :
  py_get l i = Ok x →
  ∃ k, py_index (length l) i = Some k ∧ l !! k = Some x.
Proof.
  unfold py_get. destruct (py_index _ _) as [k|]; [|done].
  destruct (l !! k) eqn:E; [|done]. intros [= ->]. eauto.
Qed.

Lemma py_get_Ok_nonneg {A} (l : list A) i x :
  0 ≤ i → py_get l i = Ok x → l !! Z.to_nat i = Some x.
Proof.
  intros Hi (k & Hk & Hx)%py_get_Ok.
  apply py_index_Some in Hk as [_ Hk]. by rewrite <- Hk.
Qed.

Lemma py_get_total {A} (l : list A) i :
  0 ≤ i < Z.of_nat (length l) → ∃ x, py_get l i = Ok x.
Proof.
  intros Hi. destruct (lookup_lt_is_Some_2 l (Z.to_nat i)) as [x Hx]; [lia|].
  exists x. apply py_get_lookup; [lia|done].
Qed.

Lemma py_set_nonneg {A} (l : list A) i x :
  0 ≤ i < Z.of_nat (length l) → py_set l i x = Ok (<[Z.to_nat i:=x]> l).
Proof. intros Hi. unfold py_set. by rewrite py_index_nonneg. Qed.

Lemma py_set_index {A} (l : list A) i k x :
  py_index (length l) i = Some k → py_set l i x = Ok (<[k:=x]> l).
Proof. intros H. unfold py_set. by rewrite H. Qed.

Lemma py_pop_snoc {A} (l : list A) x : py_pop (l ++ [x]) = Ok l.
Proof.
  unfold py_pop. rewrite removelast_last. by destruct l.
Qed.

Lemma elem_of_py_range k v : v ∈ py_range k ↔ 0 ≤ v < k.
Proof. unfold py_range. rewrite elem_of_seqZ. lia. Qed.

(** ** The stable sort behind [sorted] *)

Lemma insert_by_key_perm p l : insert_by_key p l ≡ₚ p :: l.
Proof.
  induction l as [|q l IH]; simpl; [done|].
  destruct (p.1 <=? q.1)%nat; [done|].
  rewrite IH. apply Permutation_swap.
Qed.

Lemma sort_by_key_perm l : sort_by_key l ≡ₚ l.
Proof.
  induction l as [|p l IH]; simpl; [done|].
  by rewrite insert_by_key_perm, IH.
Qed.

Lemma insert_by_key_sorted p l :
  StronglySorted key_le l → StronglySorted key_le (insert_by_key p l).
Proof.
  induction 1 as [|q l Hl IH Hq]; simpl.
  - repeat constructor.
  - destruct (p.1 <=? q.1)%nat eqn:E.
    + apply Nat.leb_le in E. constructor; [by constructor|].
      constructor; [done|].
      eapply Forall_impl; [exact Hq|]. unfold key_le. intros; simpl in *; lia.
    + apply Nat.leb_gt in E. constructor; [done|].
      rewrite insert_by_key_perm. constructor; [unfold key_le; lia|done].
Qed.

Lemma sort_by_key_sorted l : StronglySorted key_le (sort_by_key l).
Proof.
  induction l; simpl; [constructor|by apply insert_by_key_sorted].
Qed.

(** Stability: members with the same key keep their relative order. *)
Lemma insert_by_key_stable k p l :
  filter (λ q, q.1 = k) (insert_by_key p l) = filter (λ q, q.1 = k) (p :: l).
Proof.
  induction l as [|q l IH]; simpl; [done|].
  destruct (p.1 <=? q.1)%nat eqn:E; [done|].
  apply Nat.leb_gt in E.
  rewrite !filter_cons in *. rewrite IH.
  repeat case_decide; try done; lia.
Qed.

Lemma sort_by_key_stable k l :
  filter (λ q, q.1 = k) (sort_by_key l) = filter (λ q, q.1 = k) l.
Proof.
  induction l as [|p l IH]; simpl; [done|].
  rewrite insert_by_key_stable, !filter_cons, IH. done.
Qed.

Section Decorated.
Variable f : Z → nat.

Lemma decorated_sorted l :
  decorated f l → StronglySorted key_le l →
  StronglySorted (λ x y, (f x ≤ f y)%nat) (l.*2).
Proof.
  intros Hd Hs. induction Hs as [|p l Hl IH Hp]; simpl; [constructor|].
  apply Forall_cons in Hd as [Hp1 Hd]. constructor; [by apply IH|].
  apply Forall_fmap. rewrite Forall_forall in Hp, Hd |- *.
  intros q Hq. specialize (Hp q Hq). specialize (Hd q Hq).
  unfold key_le in Hp. simpl. lia.
Qed.

Lemma decorated_filter k l :
  decorated f l →
  filter (λ x, f x = k) (l.*2) = (filter (λ q, q.1 = k) l).*2.
Proof.
  induction 1 as [|p l Hp Hl IH]; [done|].
  rewrite fmap_cons, !filter_cons, IH.
  repeat case_decide; try done; congruence.
Qed.
End Decorated.

Lemma keys_of_Ok key s ks :
  keys_of key s = Ok ks → ks.*2 = s ∧ Forall (λ p, key p.2 = Ok p.1) ks.
Proof.
  revert ks. induction s as [|x s IH]; simpl; intros ks.
  - intros [= <-]. by split.
  - destruct (key x) as [k| |] eqn:Ek; simpl; try done.
    destruct (keys_of key s) as [ks'| |]; simpl; try done.
    intros [= <-]. destruct (IH ks' eq_refl) as [Hs HF].
    split; [by rewrite fmap_cons, Hs|]. by constructor.
Qed.

Lemma keys_of_total key s :
  Forall (λ x, ∃ k, key x = Ok k) s → ∃ ks, keys_of key s = Ok ks.
Proof.
  induction 1 as [|x s [k Hk] _ [ks IH]]; simpl; [eauto|].
  rewrite Hk. simpl. rewrite IH. simpl. eauto.
Qed.

(** ** [neighbors] on a well-formed graph *)

Lemma degree_Ok g x :
  wf g → 0 ≤ x < n g → degree g x = Ok (deg g x).
Proof.
  intros [Hlen _] Hx. unfold degree, deg.
  destruct (lookup_lt_is_Some_2 (adj g) (Z.to_nat x)) as [s Hs]; [lia|].
  rewrite (py_get_lookup _ _ s), Hs; [done|lia|done].
Qed.

Lemma neighbors_out_of_range g u :
  ¬ (0 ≤ u < n g) → neighbors g u = Ok [].
Proof. intros H. unfold neighbors. by rewrite bool_decide_eq_false_2. Qed.

Lemma neighbors_spec g u :
  wf g → 0 ≤ u < n g →
  ∃ s l, adj g !! Z.to_nat u = Some s ∧ neighbors g u = Ok l
    ∧ l ≡ₚ s
    ∧ StronglySorted (λ x y, (deg g x ≤ deg g y)%nat) l
    ∧ ∀ k, filter (λ x, deg g x = k) l = filter (λ x, deg g x = k) s.
Proof.
  intros Hwf Hu. pose proof Hwf as [Hlen Hrange].
  destruct (lookup_lt_is_Some_2 (adj g) (Z.to_nat u)) as [s Hs]; [lia|].
  destruct (keys_of_total (degree g) s) as [ks Hks].
  { apply Forall_forall. intros x Hx. exists (deg g x).
    apply degree_Ok; [done|]. eauto. }
  pose proof (keys_of_Ok _ _ _ Hks) as [Hsnd Hdec].
  assert (decorated (deg g) (sort_by_key ks)) as Hdec'.
  { unfold decorated. rewrite sort_by_key_perm.
    rewrite Forall_forall in Hdec |- *. intros p Hp.
    specialize (Hdec p Hp).
    assert (0 ≤ p.2 < n g) as Hr.
    { apply (Hrange (Z.to_nat u) s); [done|]. rewrite <- Hsnd.
      apply list_elem_of_fmap. eauto. }
    rewrite degree_Ok in Hdec by done. congruence. }
  exists s, ((sort_by_key ks).*2). split; [done|]. split.
  { unfold neighbors. rewrite bool_decide_eq_true_2 by done. simpl.
    rewrite (py_get_lookup _ _ s) by (done || lia). simpl.
    unfold sorted. rewrite Hks. done. }
  split; [by rewrite sort_by_key_perm, Hsnd|]. split.
  - apply decorated_sorted; [done|apply sort_by_key_sorted].
  - intros k. rewrite decorated_filter by done.
    rewrite sort_by_key_stable.
    rewrite <- (decorated_filter (deg g)), Hsnd; [done|].
    unfold decorated. rewrite <- (sort_by_key_perm ks). exact Hdec'.
Qed.

(** Membership in the neighbour list is adjacency. *)
Lemma neighbors_adjacent g u :
  wf g → 0 ≤ u < n g →
  ∃ l, neighbors g u = Ok l ∧ ∀ v, v ∈ l ↔ adjacent g u v.
Proof.
  intros Hwf Hu.
  destruct (neighbors_spec g u Hwf Hu) as (s & l & Hs & Hl & Hp & _).
  exists l. split; [done|]. intros v. rewrite Hp. unfold adjacent.
  split.
  - intros Hv. split; [lia|]. eauto.
  - intros [_ (s' & Hs' & Hv)]. congruence.
Qed.

(** ** The validator *)

Lemma set_neq_false a b : set_neq a b = false ↔ ∀ v, v ∈ a ↔ v ∈ b.
Proof.
  unfold set_neq. rewrite negb_false_iff, andb_true_iff, !forallb_forall.
  split.
  - intros [Hab Hba] v. split; intros Hv.
    + apply list_elem_of_In, Hab, bool_decide_eq_true in Hv. done.
    + apply list_elem_of_In, Hba, bool_decide_eq_true in Hv. done.
  - intros H. split; intros v Hv%list_elem_of_In;
      apply bool_decide_eq_true; by apply H.
Qed.

Lemma check_edges_spec g path idxs :
  wf g →
  (∀ v, v ∈ path → 0 ≤ v < n g) →
  (∀ i, i ∈ idxs → 0 ≤ i ∧ i + 1 < Z.of_nat (length path)) →
  ∃ b, check_edges g path idxs = Ok b
    ∧ (b = true ↔
       ∀ i u v, i ∈ idxs → path !! Z.to_nat i = Some u →
         path !! Z.to_nat (i + 1) = Some v → adjacent g u v).
Proof.
  intros Hwf Hpath. induction idxs as [|i idxs IH]; intros Hidx.
  { exists true. split; [done|]. split; [|done].
    intros _ i u v Hi. by apply elem_of_nil in Hi. }
  destruct (Hidx i) as [Hi0 Hi1]; [left|].
  destruct IH as (b & Hb & Hspec).
  { intros j Hj. apply Hidx. by right. }
  destruct (lookup_lt_is_Some_2 path (Z.to_nat i)) as [u Hu]; [lia|].
  destruct (lookup_lt_is_Some_2 path (Z.to_nat (i + 1))) as [v Hv]; [lia|].
  assert (0 ≤ u < n g) as Hur by (eapply Hpath, list_elem_of_lookup_2; done).
  destruct (neighbors_adjacent g u Hwf Hur) as (l & Hl & Hadj).
  assert (check_edges g path (i :: idxs) =
          if negb (bool_decide (v ∈ l)) then Ok false
          else check_edges g path idxs) as ->.
  { simpl. rewrite (py_get_lookup path i u) by (done || lia). simpl.
    rewrite (py_get_lookup path (i + 1) v) by (done || lia). simpl.
    rewrite Hl. simpl. by destruct (directed g). }
  case_bool_decide as Hvl; simpl.
  - exists b. split; [done|]. rewrite Hspec. split.
    + intros H j u' v' [->|Hj]%elem_of_cons Hu' Hv'.
      * assert (u' = u ∧ v' = v) as [-> ->] by (split; congruence).
        by apply Hadj.
      * by eapply H.
    + intros H j u' v' Hj. apply H. by right.
  - exists false. split; [done|]. split; [done|].
    intros H. exfalso. apply Hvl, Hadj. eapply (H i); [left|done|done].
Qed.

Lemma is_hamiltonian_path_spec g p :
  wf g →
  ∃ b, is_hamiltonian_path g p = Ok b ∧ (b = true ↔ hamiltonian g p).
Proof.
  intros Hwf. unfold is_hamiltonian_path, hamiltonian.
  case_bool_decide as Hlen; simpl.
  2: { exists false. split; [done|]. split; [done|]. by intros [? _]. }
  destruct (set_neq p (py_range (n g))) eqn:Hset.
  { exists false. split; [done|]. split; [done|]. intros (_ & Hmem & _).
    assert (set_neq p (py_range (n g)) = false) as E; [|congruence].
    apply set_neq_false. intros v. by rewrite elem_of_py_range. }
  pose proof (proj1 (set_neq_false _ _) Hset) as Hmem. clear Hset.
  rename Hmem into Hset.
  destruct (check_edges_spec g p (py_range (Z.of_nat (length p) - 1)))
    as (b & Hb & Hspec).
  - done.
  - intros v Hv. by apply elem_of_py_range, Hset.
  - intros i Hi%elem_of_py_range. lia.
  - exists b. split; [done|]. rewrite Hspec. split.
    + intros H. split; [done|]. split.
      { intros v. by rewrite Hset, elem_of_py_range. }
      intros i u v Hu Hv. apply (H (Z.of_nat i)).
      * apply elem_of_py_range. apply lookup_lt_Some in Hv. lia.
      * by rewrite Nat2Z.id.
      * by replace (Z.to_nat (Z.of_nat i + 1)) with (S i) by lia.
    + intros (_ & _ & H) i u v Hi%elem_of_py_range Hu Hv.
      apply (H (Z.to_nat i)); [done|].
      by replace (S (Z.to_nat i)) with (Z.to_nat (i + 1)) by lia.
Qed.

(** ** The search leaves the graph alone and undoes its moves *)

Lemma py_set_restore (vis : list bool) nb k :
  py_index (length vis) nb = Some k → vis !! k = Some false →
  py_set (<[k:=true]> vis) nb false = Ok vis.
Proof.
  intros Hk Hv. unfold py_set. rewrite length_insert, Hk.
  by rewrite list_insert_insert_eq, list_insert_id.
Qed.

Lemma for_neighbors_undone rec :
  (∀ c st, undone st (rec c st)) →
  ∀ nbs st, undone st (for_neighbors rec nbs st).
Proof.
  intros Hrec nbs. induction nbs as [|nb rest IH]; intros st r st'; simpl.
  { intros [= <- <-]. done. }
  destruct (py_get (st_visited st) nb) as [seen| |] eqn:Hseen; simpl; try done.
  destruct seen; simpl; [apply IH|].
  apply py_get_Ok in Hseen as (k & Hk & Hvis).
  rewrite (py_set_index _ _ k) by done. simpl.
  destruct (rec nb _) as [[result st2]| |] eqn:Hcall; simpl; try done.
  apply Hrec in Hcall as [Hg Hsame]. simpl in Hg.
  destruct result as [p|].
  { intros [= <- <-]. done. }
  rewrite (Hsame eq_refl). simpl.
  rewrite py_pop_snoc. simpl.
  rewrite (py_set_restore _ _ k) by done. simpl.
  destruct st as [g0 path0 vis0]. apply IH.
Qed.

Lemma backtrack_undone fuel c st : undone st (_backtrack fuel c st).
Proof.
  revert c st. induction fuel as [|fuel IH]; intros c st r st'; simpl; [done|].
  case_bool_decide.
  { intros [= <- <-]. done. }
  destruct (neighbors (st_g st) c) as [nbs| |]; simpl; try done.
  by apply for_neighbors_undone.
Qed.

Lemma try_starts_frame fuel starts g r g' :
  try_starts fuel starts g = Ok (r, g') → g' = g.
Proof.
  revert g. induction starts as [|s rest IH]; intros g; simpl.
  { by intros [= _ <-]. }
  destruct (py_set _ s true) as [vis| |]; simpl; try done.
  destruct (_backtrack _ _ _) as [[result st]| |] eqn:Hcall; simpl; try done.
  apply backtrack_undone in Hcall as [Hg _]. simpl in Hg.
  destruct result.
  - by intros [= _ <-].
  - rewrite Hg. apply IH.
Qed.

(** ** Hamiltonian paths and partial paths *)

Lemma py_range_length k : length (py_range k) = Z.to_nat k.
Proof. apply length_seqZ. Qed.

Lemma py_range_NoDup k : NoDup (py_range k).
Proof. apply NoDup_seqZ. Qed.

(** A repetition-free list of [n] vertex identifiers holds all of
    them, and a list of length [n] holding all of them is repetition
    free. *)
Lemma all_vertices (p : list Z) k :
  NoDup p → (∀ v, v ∈ p → 0 ≤ v < k) → Z.of_nat (length p) = k →
  ∀ v, 0 ≤ v < k → v ∈ p.
Proof.
  intros Hnd Hr Hlen v Hv.
  assert (p ⊆+ py_range k) as Hsub.
  { apply NoDup_submseteq; [done|]. intros x Hx. by apply elem_of_py_range, Hr. }
  apply submseteq_length_Permutation in Hsub.
  - rewrite Hsub. by apply elem_of_py_range.
  - rewrite py_range_length. lia.
Qed.

Lemma vertices_bound (p : list Z) k :
  NoDup p → (∀ v, v ∈ p → 0 ≤ v < k) → (length p ≤ Z.to_nat k)%nat.
Proof.
  intros Hnd Hr.
  assert (p ⊆+ py_range k) as Hsub.
  { apply NoDup_submseteq; [done|]. intros x Hx. by apply elem_of_py_range, Hr. }
  apply submseteq_length in Hsub. by rewrite py_range_length in Hsub.
Qed.

Lemma hamiltonian_NoDup g p : hamiltonian g p → NoDup p.
Proof.
  intros (Hlen & Hmem & _).
  assert (py_range (n g) ⊆+ p) as Hsub.
  { apply NoDup_submseteq; [apply py_range_NoDup|].
    intros x Hx. by apply Hmem, elem_of_py_range. }
  apply submseteq_length_Permutation in Hsub.
  - rewrite <- Hsub. apply py_range_NoDup.
  - rewrite py_range_length. lia.
Qed.

Lemma walk_snoc g p c v :
  walk g p → last p = Some c → adjacent g c v → walk g (p ++ [v]).
Proof.
  intros Hw Hlast Hadj i a b Ha Hb.
  assert (S i < length (p ++ [v]))%nat as Hi by (by eapply lookup_lt_Some).
  rewrite length_app in Hi. simpl in Hi.
  rewrite lookup_app_l in Ha by lia.
  destruct (decide (S i < length p)%nat) as [Hlt|Hge].
  - rewrite lookup_app_l in Hb by lia. by eapply Hw.
  - rewrite last_lookup in Hlast.
    replace (pred (length p)) with i in Hlast by lia.
    rewrite lookup_app_r in Hb by lia.
    replace (S i - length p)%nat with 0%nat in Hb by lia.
    simpl in Hb. congruence.
Qed.

(** ** The state the search works on *)

Lemma push_inv c st v :
  search_inv c st → adjacent (st_g st) c v → v ∉ st_path st →
  search_inv v (push st v).
Proof.
  intros [Hwf Hlen Hvis Hrange Hnd Hwalk Hlast] Hadj Hfresh.
  assert (0 ≤ v < n (st_g st)) as Hv.
  { destruct Hadj as [_ (s & Hs & Hin)]. by eapply wf_range. }
  split; simpl; try done.
  - by rewrite length_insert.
  - intros w Hw. rewrite elem_of_app, list_elem_of_singleton.
    destruct (decide (w = v)) as [->|Hne].
    + rewrite list_lookup_insert_eq by lia. split; [by right|done].
    + rewrite list_lookup_insert_ne by lia. rewrite Hvis by done.
      split; [by left|by intros [?|?]].
  - intros w [Hw| ->%list_elem_of_singleton]%elem_of_app; auto.
  - apply NoDup_app. split; [done|]. split; [|apply NoDup_singleton].
    intros w Hw ->%list_elem_of_singleton. done.
  - by eapply walk_snoc.
  - by rewrite last_snoc.
Qed.

Lemma for_neighbors_seen rec nb rest st :
  py_get (st_visited st) nb = Ok true →
  for_neighbors rec (nb :: rest) st = for_neighbors rec rest st.
Proof. intros H. simpl. by rewrite H. Qed.

Lemma for_neighbors_fresh rec nb rest st :
  0 ≤ nb < Z.of_nat (length (st_visited st)) →
  st_visited st !! Z.to_nat nb = Some false →
  for_neighbors rec (nb :: rest) st =
    '(result, st2) ← rec nb (push st nb);
    match result with
    | Some p => Ok (Some p, st2)
    | None =>
        path3 ← py_pop (st_path st2);
        vis3 ← py_set (st_visited st2) nb false;
        for_neighbors rec rest (mkState (st_g st2) path3 vis3)
    end.
Proof.
  intros Hnb Hvis. simpl.
  rewrite (py_get_lookup _ _ false) by (done || lia). simpl.
  rewrite py_set_nonneg by done. done.
Qed.

Lemma pop_push {B} (K : state → res B) st nb :
  0 ≤ nb < Z.of_nat (length (st_visited st)) →
  st_visited st !! Z.to_nat nb = Some false →
  (path3 ← py_pop (st_path (push st nb));
   vis3 ← py_set (st_visited (push st nb)) nb false;
   K (mkState (st_g (push st nb)) path3 vis3)) = K st.
Proof.
  intros Hnb Hvis. simpl. rewrite py_pop_snoc. simpl.
  rewrite (py_set_restore _ _ (Z.to_nat nb)); [by destruct st| |done].
  by apply py_index_nonneg.
Qed.

(** ** Correctness of the recursive extension *)

Lemma repeated_no_prefix g path v p :
  v ∈ path → hamiltonian g p → ¬ (path ++ [v]) `prefix_of` p.
Proof.
  intros Hv Hp%hamiltonian_NoDup [k ->].
  apply NoDup_app in Hp as [Hp _]. apply NoDup_app in Hp as (_ & Hp & _).
  apply (Hp v Hv). by left.
Qed.

Lemma backtrack_correct fuel : ∀ c st,
  search_inv c st →
  (Z.to_nat (n (st_g st)) < fuel + length (st_path st))%nat →
  ∃ r st', _backtrack fuel c st = Ok (r, st')
    ∧ verdict (st_g st) (st_path st) r.
Proof.
  induction fuel as [|fuel IH]; intros c st Hinv Hfuel.
  { exfalso.
    pose proof (vertices_bound _ _ (si_nodup _ _ Hinv) (si_range _ _ Hinv)).
    lia. }
  simpl. case_bool_decide as Hlen.
  { exists (Some (st_path st)), st. split; [done|]. split; [|done].
    split; [done|]. split; [|apply Hinv].
    intros v; split; [apply Hinv|].
    apply all_vertices; [apply Hinv|apply Hinv|done]. }
  assert (c ∈ st_path st) as Hc by (eapply last_Some_elem_of, Hinv).
  assert (0 ≤ c < n (st_g st)) as Hcr by (by eapply si_range).
  destruct (neighbors_adjacent (st_g st) c) as (l & Hl & Hadj);
    [apply Hinv|done|].
  rewrite Hl. simpl.
  assert (∀ nbs, (∀ v, v ∈ nbs → adjacent (st_g st) c v) →
    ∃ r st', for_neighbors (_backtrack fuel) nbs st = Ok (r, st')
      ∧ match r with
        | Some p => hamiltonian (st_g st) p ∧ st_path st `prefix_of` p
        | None => ∀ v, v ∈ nbs → ∀ p, hamiltonian (st_g st) p →
                    ¬ (st_path st ++ [v]) `prefix_of` p
        end) as Hloop.
  { induction nbs as [|nb rest IHn]; intros Hnbs.
    { exists None, st. split; [done|]. intros v Hv. by apply elem_of_nil in Hv. }
    assert (adjacent (st_g st) c nb) as Hnb by (apply Hnbs; left).
    assert (0 ≤ nb < n (st_g st)) as Hnbr.
    { destruct Hnb as [_ (s & Hs & Hin)]. eapply wf_range; [apply Hinv|done..]. }
    pose proof (si_len _ _ Hinv) as Hvlen.
    destruct IHn as (r & st' & Hrun & Hr).
    { intros v Hv. apply Hnbs. by right. }
    destruct (lookup_lt_is_Some_2 (st_visited st) (Z.to_nat nb)) as [b Hb];
      [lia|].
    destruct b.
    - rewrite for_neighbors_seen by (apply py_get_lookup; [lia|done]).
      exists r, st'. split; [done|]. destruct r; [done|].
      intros v [->|Hv]%elem_of_cons; [|by apply Hr].
      intros p Hp. eapply repeated_no_prefix; [|done].
      by apply (si_vis _ _ Hinv).
    - assert (nb ∉ st_path st) as Hfresh.
      { intros Hin. apply (si_vis _ _ Hinv) in Hin; [congruence|done]. }
      rewrite for_neighbors_fresh by (done || lia).
      destruct (IH nb (push st nb)) as (r1 & st1 & Hrun1 & Hr1).
      { by eapply push_inv. }
      { simpl. rewrite length_app. simpl. lia. }
      rewrite Hrun1. simpl. destruct r1 as [p|].
      + exists (Some p), st1. split; [done|].
        destruct Hr1 as [Hp Hpre]. simpl in Hp, Hpre. split; [done|].
        by eapply prefix_app_l.
      + pose proof (backtrack_undone _ _ _ _ _ Hrun1) as [_ Hsame].
        rewrite (Hsame eq_refl).
        rewrite (pop_push (for_neighbors (_backtrack fuel) rest))
          by (done || lia).
        exists r, st'. split; [done|]. destruct r; [done|].
        intros v [->|Hv]%elem_of_cons; [exact Hr1|by apply Hr]. }
  destruct (Hloop l) as (r & st' & Hrun & Hr).
  { intros v Hv. by apply Hadj. }
  exists r, st'. split; [done|]. destruct r; [done|].
  intros p Hp [k ->]. destruct k as [|v k].
  { rewrite app_nil_r in Hp. by destruct Hp as [Hlen' _]. }
  apply (Hr v) with (p := st_path st ++ v :: k);
    [|done|exists k; by rewrite <- app_assoc].
  apply Hadj. destruct Hp as (_ & _ & Hw).
  assert (length (st_path st) ≠ 0)%nat as Hne.
  { intros H0. apply length_zero_iff_nil in H0. rewrite H0 in Hc.
    by apply elem_of_nil in Hc. }
  apply (Hw (pred (length (st_path st)))).
  - rewrite lookup_app_l by lia. rewrite <- last_lookup. apply Hinv.
  - replace (S (pred (length (st_path st)))) with (length (st_path st)) by lia.
    by rewrite list_lookup_middle.
Qed.

(** ** Correctness of [find_hamiltonian_path] *)

Lemma start_inv g s :
  wf g → 0 ≤ s < n g →
  search_inv s
    (mkState g [s] (<[Z.to_nat s:=true]> (replicate (Z.to_nat (n g)) false))).
Proof.
  intros Hwf Hs. split; simpl; try done.
  - by rewrite length_insert, length_replicate.
  - intros v Hv. rewrite list_elem_of_singleton.
    destruct (decide (v = s)) as [->|Hne].
    + rewrite list_lookup_insert_eq by (rewrite length_replicate; lia). done.
    + rewrite list_lookup_insert_ne by lia.
      rewrite lookup_replicate_2 by lia. split; [done|congruence].
  - by intros v ->%list_elem_of_singleton.
  - apply NoDup_singleton.
Qed.

Lemma head_prefix (s : Z) p : [s] `prefix_of` p ↔ head p = Some s.
Proof.
  split.
  - by intros [k ->].
  - destruct p as [|x p]; [done|]. intros [= ->]. by exists p.
Qed.

Lemma try_starts_correct fuel g starts :
  wf g → (Z.to_nat (n g) ≤ fuel)%nat →
  (∀ s, s ∈ starts → 0 ≤ s < n g) →
  ∃ r, try_starts fuel starts g = Ok (r, g) ∧ starts_verdict g starts r.
Proof.
  intros Hwf Hfuel. induction starts as [|s rest IH]; intros Hr.
  { exists None. split; [done|]. intros s q Hs. by apply elem_of_nil in Hs. }
  assert (0 ≤ s < n g) as Hs by (apply Hr; left).
  destruct IH as (r & Hrun & Hv).
  { intros s' Hs'. apply Hr. by right. }
  simpl. rewrite py_set_nonneg by (rewrite length_replicate; lia). simpl.
  destruct (backtrack_correct fuel s _ (start_inv g s Hwf Hs))
    as (r1 & st1 & Hrun1 & Hv1); [simpl; lia|].
  rewrite Hrun1. simpl.
  pose proof (backtrack_undone _ _ _ _ _ Hrun1) as [Hg _]. simpl in Hg, Hv1.
  rewrite Hg. destruct r1 as [p|].
  - exists (Some p). split; [done|]. destruct Hv1 as [Hp Hpre].
    split; [done|]. exists 0%nat, s. split; [done|].
    split; [by apply head_prefix|]. intros; lia.
  - exists r. split; [done|]. destruct r as [p|].
    + destruct Hv as (Hp & i & s0 & Hi & Hhd & Hmin). split; [done|].
      exists (S i), s0. split; [done|]. split; [done|].
      intros [|j] s' q Hj Hs' Hq.
      * simpl in Hs'. injection Hs' as <-.
        intros Hhd'%head_prefix. by eapply Hv1.
      * eapply Hmin; [|done..]. lia.
    + intros s' q [->|Hs']%elem_of_cons Hq; [|by apply Hv].
      intros Hhd'%head_prefix. by eapply Hv1.
Qed.

Lemma hamiltonian_small g :
  (n g = 0 → hamiltonian g []) ∧ (n g = 1 → hamiltonian g [0]).
Proof.
  split; intros Hn; (split; [by rewrite Hn|]); split.
  - intros v. rewrite elem_of_nil. lia.
  - by intros i u v [=].
  - intros v. rewrite list_elem_of_singleton. lia.
  - intros i u v _ Hv. by destruct i.
Qed.

Lemma hamiltonian_head g q :
  hamiltonian g q → n g ≠ 0 → ∃ s, head q = Some s ∧ 0 ≤ s < n g.
Proof.
  intros (Hlen & Hmem & _) Hn. destruct q as [|s q]; simpl in *; [lia|].
  exists s. split; [done|]. apply Hmem. left.
Qed.

(** The result of the search, for every budget that covers [n] nested
    calls: the graph is returned as it was, a returned path is
    Hamiltonian and starts at the least vertex that begins one (when the
    start vertices are searched at all), and a failure means there is
    none. *)
Lemma find_hamiltonian_path_correct fuel g :
  wf g → (Z.to_nat (n g) ≤ fuel)%nat →
  ∃ r, find_hamiltonian_path fuel g = Ok (r, g)
    ∧ match r with
      | Some p => hamiltonian g p
          ∧ (2 ≤ n g → ∃ s, head p = Some s
               ∧ ∀ s' q, hamiltonian g q → head q = Some s' → s ≤ s')
      | None => ∀ q, ¬ hamiltonian g q
      end.
Proof.
  intros Hwf Hfuel. unfold find_hamiltonian_path.
  pose proof (hamiltonian_small g) as [H0 H1].
  case_bool_decide as Hn0.
  { exists (Some []). split; [done|]. split; [auto|lia]. }
  case_bool_decide as Hn1.
  { exists (Some [0]). split; [done|]. split; [auto|lia]. }
  destruct (try_starts_correct fuel g (py_range (n g)) Hwf Hfuel)
    as (r & Hrun & Hv).
  { intros s. by rewrite elem_of_py_range. }
  exists r. split; [done|]. destruct r as [p|].
  - destruct Hv as (Hp & i & s & Hi & Hhd & Hmin). split; [done|].
    intros _. exists s. split; [done|]. intros s' q Hq Hhd'.
    destruct (hamiltonian_head g q Hq Hn0) as (s'' & Hs'' & Hr).
    assert (s'' = s') as -> by congruence.
    apply lookup_seqZ in Hi as [-> Hi].
    destruct (decide (0 + Z.of_nat i ≤ s')) as [|Hlt]; [done|].
    exfalso. apply (Hmin (Z.to_nat s') s' q); [lia| |done..].
    apply lookup_seqZ. lia.
  - intros q Hq.
    destruct (hamiltonian_head g q Hq Hn0) as (s & Hs & Hr).
    apply (Hv s q); [by apply elem_of_py_range|done..].
Qed.

(** ** Building a graph *)

Lemma ins_end_perm x s : x ∉ s → ins_end x s ≡ₚ x :: s.
Proof. intros _. unfold ins_end. symmetry. apply Permutation_cons_append. Qed.

Lemma adjacent_member g u v :
  adjacent g u v ↔ 0 ≤ u ∧ member (adj g) (Z.to_nat u) v.
Proof. done. Qed.

Section AddEdge.
Variable ins : Z → list Z → list Z.
Hypothesis ins_perm : ∀ x s, x ∉ s → ins x s ≡ₚ x :: s.

Lemma elem_of_set_add x s y : y ∈ set_add ins x s ↔ y = x ∨ y ∈ s.
Proof.
  unfold set_add. case_bool_decide as Hx.
  - split; [by right|]. by intros [->|?].
  - rewrite (ins_perm x s Hx). apply elem_of_cons.
Qed.

Lemma set_add_NoDup x s : NoDup s → NoDup (set_add ins x s).
Proof.
  intros Hs. unfold set_add. case_bool_decide as Hx; [done|].
  rewrite (ins_perm x s Hx). by constructor.
Qed.

Lemma set_add_idem x s : set_add ins x (set_add ins x s) = set_add ins x s.
Proof.
  unfold set_add at 1. rewrite bool_decide_eq_true_2; [done|].
  apply elem_of_set_add. by left.
Qed.

Lemma member_alter (adjs : list (list Z)) (k : nat) x i b :
  (k < length adjs)%nat →
  member (alter (set_add ins x) k adjs) i b
  ↔ member adjs i b ∨ (i = k ∧ b = x).
Proof.
  intros Hk. unfold member. destruct (decide (i = k)) as [->|Hne].
  - rewrite list_lookup_alter_eq.
    destruct (lookup_lt_is_Some_2 adjs k Hk) as [s Hs]. rewrite Hs. simpl.
    split.
    + intros (s' & [= <-] & [->|Hb]%elem_of_set_add); [by right|].
      left. eauto.
    + intros [(s' & [= <-] & Hb)|[_ ->]];
        (eexists; split; [done|]); apply elem_of_set_add; auto.
  - rewrite list_lookup_alter_ne by done. split; [by left|].
    by intros [?|[? _]].
Qed.

Lemma alter_set_lookup (adjs : list (list Z)) (k i : nat) x s' :
  alter (set_add ins x) k adjs !! i = Some s' →
  ∃ s, adjs !! i = Some s ∧ (s' = s ∨ s' = set_add ins x s).
Proof.
  destruct (decide (i = k)) as [->|Hne].
  - rewrite list_lookup_alter_eq. destruct (adjs !! k) as [s|]; [|done].
    intros [= <-]. eauto.
  - rewrite list_lookup_alter_ne by done. eauto.
Qed.

Lemma py_set_alter (adjs : list (list Z)) i x s :
  0 ≤ i → adjs !! Z.to_nat i = Some s →
  py_set adjs i (set_add ins x s) = Ok (alter (set_add ins x) (Z.to_nat i) adjs).
Proof.
  intros Hi Hs. rewrite py_set_nonneg.
  - f_equal. apply list_eq. intros j.
    destruct (decide (j = Z.to_nat i)) as [->|Hne].
    + rewrite list_lookup_alter_eq, Hs.
      apply list_lookup_insert_eq. by eapply lookup_lt_Some.
    + by rewrite list_lookup_alter_ne, list_lookup_insert_ne.
  - apply lookup_lt_Some in Hs. lia.
Qed.

Lemma add_edge_rejected g u v :
  u = v ∨ ¬ (0 ≤ u < n g) ∨ ¬ (0 ≤ v < n g) → add_edge ins g u v = Ok g.
Proof.
  intros H. unfold add_edge. case_bool_decide; [done|].
  destruct H as [?|H]; [done|].
  rewrite (proj2 (negb_true_iff _)); [done|].
  apply andb_false_iff. rewrite !bool_decide_eq_false. tauto.
Qed.

Lemma add_edge_accepted g u v :
  length (adj g) = Z.to_nat (n g) →
  u ≠ v → 0 ≤ u < n g → 0 ≤ v < n g →
  add_edge ins g u v = Ok (mkGraph (n g) (directed g) (added ins g u v)).
Proof.
  intros Hlen Hne Hu Hv. unfold add_edge, added.
  rewrite bool_decide_eq_false_2 by done.
  rewrite !bool_decide_eq_true_2 by done. simpl.
  destruct (lookup_lt_is_Some_2 (adj g) (Z.to_nat u)) as [su Hsu]; [lia|].
  rewrite (py_get_lookup _ _ su) by (done || lia). simpl.
  rewrite py_set_alter by (done || lia). simpl.
  destruct (directed g); simpl; [done|].
  set (adj1 := alter _ _ _).
  destruct (lookup_lt_is_Some_2 adj1 (Z.to_nat v)) as [sv Hsv].
  { unfold adj1. rewrite length_alter. lia. }
  rewrite (py_get_lookup _ _ sv) by (done || lia). simpl.
  rewrite py_set_alter by (done || lia). done.
Qed.

Lemma member_added g u v i b :
  length (adj g) = Z.to_nat (n g) → 0 ≤ u < n g → 0 ≤ v < n g →
  member (added ins g u v) i b
  ↔ member (adj g) i b ∨ (i = Z.to_nat u ∧ b = v)
    ∨ (directed g = false ∧ i = Z.to_nat v ∧ b = u).
Proof.
  intros Hlen Hu Hv. unfold added. destruct (directed g).
  - rewrite member_alter by lia. intuition congruence.
  - rewrite member_alter by (rewrite length_alter; lia).
    rewrite member_alter by lia. tauto.
Qed.

Lemma added_inv g u v :
  graph_inv g → u ≠ v → 0 ≤ u < n g → 0 ≤ v < n g →
  graph_inv (mkGraph (n g) (directed g) (added ins g u v)).
Proof.
  intros [[Hlen Hrange] Hnd Hloop Hsym] Hne Hu Hv.
  assert (∀ a b, adjacent (mkGraph (n g) (directed g) (added ins g u v)) a b
    ↔ adjacent g a b ∨ (a = u ∧ b = v)
      ∨ (directed g = false ∧ a = v ∧ b = u)) as Hadj.
  { intros a b. rewrite !adjacent_member. simpl.
    rewrite member_added by done.
    split; [intros [Ha [?|[[? ?]|(? & ? & ?)]]]|]; intuition lia. }
  split; [split|..]; simpl.
  - unfold added. destruct (directed g); by rewrite ?length_alter.
  - intros i s x Hs Hx.
    assert (member (added ins g u v) i x) as Hm by (by exists s).
    apply member_added in Hm as [(s0 & Hs0 & Hx0)|[[_ ->]|(_ & _ & ->)]];
      [by eapply Hrange|done..].
  - intros i s. unfold added.
    destruct (directed g).
    + intros (s0 & Hs0 & [->| ->])%alter_set_lookup;
        [|apply set_add_NoDup]; by eapply Hnd.
    + intros (s1 & (s0 & Hs0 & Hs1)%alter_set_lookup & Hs)%alter_set_lookup.
      assert (NoDup s1) as Hnd1.
      { destruct Hs1 as [->| ->]; [|apply set_add_NoDup]; by eapply Hnd. }
      destruct Hs as [->| ->]; [done|by apply set_add_NoDup].
  - intros a [Ha|[[? ?]|(_ & ? & ?)]]%Hadj; [by eapply Hloop|congruence..].
  - intros Hd a b. rewrite !Hadj.
    intros [Hab|[[-> ->]|(_ & -> & ->)]]; auto.
Qed.

Lemma add_edge_inv g u v :
  graph_inv g →
  ∃ g', add_edge ins g u v = Ok g' ∧ graph_inv g'
    ∧ n g' = n g ∧ directed g' = directed g.
Proof.
  intros Hinv.
  destruct (decide (u = v ∨ ¬ (0 ≤ u < n g) ∨ ¬ (0 ≤ v < n g))) as [Hrej|Hacc].
  - exists g. by rewrite add_edge_rejected.
  - assert (u ≠ v ∧ 0 ≤ u < n g ∧ 0 ≤ v < n g) as (Hne & Hu & Hv) by lia.
    eexists. rewrite add_edge_accepted; [|apply Hinv|done..].
    split; [done|]. split; [by apply added_inv|done].
Qed.

Lemma add_edges_inv es : ∀ g,
  graph_inv g →
  ∃ g', add_edges ins g es = Ok g' ∧ graph_inv g'
    ∧ n g' = n g ∧ directed g' = directed g.
Proof.
  induction es as [|[u v] es IH]; intros g Hinv; simpl.
  { by exists g. }
  destruct (add_edge_inv g u v Hinv) as (g1 & Hrun & Hinv1 & Hn & Hd).
  rewrite Hrun. simpl.
  destruct (IH g1 Hinv1) as (g' & Hrun' & Hinv' & Hn' & Hd').
  exists g'. split; [done|]. split; [done|]. split; congruence.
Qed.
Lemma add_edge_twice g u v :
  (g1 ← add_edge ins g u v; add_edge ins g1 u v) = add_edge ins g u v.
Proof.
  destruct (decide (u = v ∨ ¬ (0 ≤ u < n g) ∨ ¬ (0 ≤ v < n g))) as [Hrej|Hacc].
  { rewrite (add_edge_rejected g u v Hrej). simpl.
    apply add_edge_rejected, Hrej. }
  assert (u ≠ v ∧ 0 ≤ u < n g ∧ 0 ≤ v < n g) as (Hne & Hu & Hv) by lia.
  destruct (add_edge ins g u v) as [g1| |] eqn:Hrun; simpl; try done.
  revert Hrun. unfold add_edge.
  rewrite bool_decide_eq_false_2 by done.
  rewrite !bool_decide_eq_true_2 by done. simpl.
  destruct (py_get (adj g) u) as [su| |] eqn:Hsu; simpl; try done.
  apply py_get_Ok_nonneg in Hsu; [|lia].
  pose proof (lookup_lt_Some _ _ _ Hsu) as Hku.
  rewrite py_set_nonneg by lia. simpl.
  set (adj1 := <[Z.to_nat u:=set_add ins v su]> (adj g)).
  assert (adj1 !! Z.to_nat u = Some (set_add ins v su)) as Hu1.
  { apply list_lookup_insert_eq. lia. }
  assert (length adj1 = length (adj g)) as Hlen1 by apply length_insert.
  destruct (directed g) eqn:Hd; simpl.
  - intros [= <-]. simpl.
    rewrite !bool_decide_eq_true_2 by done. simpl.
    rewrite (py_get_lookup _ _ _ (proj1 Hu) Hu1). simpl.
    rewrite py_set_nonneg by lia.
    simpl. do 2 f_equal.
    rewrite set_add_idem by done. by apply list_insert_id.
  - destruct (py_get adj1 v) as [sv| |] eqn:Hsv; simpl; try done.
    apply py_get_Ok_nonneg in Hsv; [|lia].
    pose proof (lookup_lt_Some _ _ _ Hsv) as Hkv.
    rewrite py_set_nonneg by lia. simpl.
    set (adj2 := <[Z.to_nat v:=set_add ins u sv]> adj1).
    assert (length adj2 = length adj1) as Hlen2 by apply length_insert.
    intros [= <-]. simpl.
    rewrite !bool_decide_eq_true_2 by done. simpl.
    assert (adj2 !! Z.to_nat u = Some (set_add ins v su)) as Hu2.
    { unfold adj2. rewrite list_lookup_insert_ne by lia. done. }
    assert (adj2 !! Z.to_nat v = Some (set_add ins u sv)) as Hv2.
    { apply list_lookup_insert_eq. lia. }
    rewrite (py_get_lookup _ _ _ (proj1 Hu) Hu2). simpl.
    rewrite py_set_nonneg by lia.
    simpl. rewrite set_add_idem by done.
    rewrite (list_insert_id adj2 _ _ Hu2).
    rewrite (py_get_lookup _ _ _ (proj1 Hv) Hv2). simpl.
    rewrite py_set_nonneg by lia.
    simpl. rewrite set_add_idem by done.
    by rewrite (list_insert_id adj2 _ _ Hv2).
Qed.
End AddEdge.

Lemma Graph_init_inv n0 d : graph_inv (Graph_init n0 d).
Proof.
  assert (∀ i s, replicate (Z.to_nat n0) ([] : list Z) !! i = Some s → s = [])
    as Hempty.
  { intros i s [-> _]%lookup_replicate. done. }
  split; [split|..]; simpl.
  - apply length_replicate.
  - intros i s v ->%Hempty Hv. by apply elem_of_nil in Hv.
  - intros i s ->%Hempty. constructor.
  - intros u [_ (s & ->%Hempty & Hv)]. by apply elem_of_nil in Hv.
  - intros _ u v [_ (s & ->%Hempty & Hv)]. by apply elem_of_nil in Hv.
Qed.

(** Every graph obtained through the constructor and [add_edge] is
    well-formed, whatever the iteration order of the sets. *)
Lemma built_wf (ins : Z → list Z → list Z) n0 d es :
  (∀ x s, x ∉ s → ins x s ≡ₚ x :: s) →
  ∃ g, add_edges ins (Graph_init n0 d) es = Ok g ∧ wf g.
Proof.
  intros Hins.
  destruct (add_edges_inv ins Hins es _ (Graph_init_inv n0 d))
    as (g & Hrun & Hinv & _).
  exists g. split; [done|apply Hinv].
Qed.

(** ** A larger budget does not change a result *)

Lemma for_neighbors_mono rec rec' :
  (∀ c st x, rec c st = Ok x → rec' c st = Ok x) →
  ∀ nbs st x, for_neighbors rec nbs st = Ok x →
    for_neighbors rec' nbs st = Ok x.
Proof.
  intros Hrec nbs. induction nbs as [|nb rest IH]; intros st x; simpl; [done|].
  destruct (py_get (st_visited st) nb) as [seen| |]; simpl; try done.
  destruct seen; simpl; [apply IH|].
  destruct (py_set (st_visited st) nb true) as [vis1| |]; simpl; try done.
  destruct (rec nb _) as [[result st2]| |] eqn:Hcall; simpl; try done.
  rewrite (Hrec _ _ _ Hcall). simpl.
  destruct result; [done|].
  destruct (py_pop _) as [path3| |]; simpl; try done.
  destruct (py_set (st_visited st2) nb false) as [vis3| |]; simpl; try done.
  apply IH.
Qed.

Lemma backtrack_mono fuel : ∀ fuel' c st x,
  (fuel ≤ fuel')%nat →
  _backtrack fuel c st = Ok x → _backtrack fuel' c st = Ok x.
Proof.
  induction fuel as [|fuel IH]; intros fuel' c st x Hle; simpl; [done|].
  destruct fuel' as [|fuel']; [lia|]. simpl.
  case_bool_decide; [done|].
  destruct (neighbors (st_g st) c) as [nbs| |]; simpl; try done.
  apply for_neighbors_mono. intros c' st' x'. apply IH. lia.
Qed.

Lemma try_starts_mono fuel fuel' starts : ∀ g x,
  (fuel ≤ fuel')%nat →
  try_starts fuel starts g = Ok x → try_starts fuel' starts g = Ok x.
Proof.
  induction starts as [|s rest IH]; intros g x Hle; simpl; [done|].
  destruct (py_set _ s true) as [vis| |]; simpl; try done.
  destruct (_backtrack fuel _ _) as [[result st]| |] eqn:Hcall; simpl; try done.
  rewrite (backtrack_mono _ _ _ _ _ Hle Hcall). simpl.
  destruct result; [done|]. by apply IH.
Qed.

Lemma find_hamiltonian_path_mono fuel fuel' g x :
  (fuel ≤ fuel')%nat →
  find_hamiltonian_path fuel g = Ok x → find_hamiltonian_path fuel' g = Ok x.
Proof.
  intros Hle. unfold find_hamiltonian_path.
  repeat case_bool_decide; try done. by apply try_starts_mono.
Qed.

(** Whatever the budget, a result of the search is the one the correctness
    lemma describes. *)
Lemma find_hamiltonian_path_result fuel g r g' :
  wf g → find_hamiltonian_path fuel g = Ok (r, g') →
  g' = g
  ∧ match r with
    | Some p => hamiltonian g p
        ∧ (2 ≤ n g → ∃ s, head p = Some s
             ∧ ∀ s' q, hamiltonian g q → head q = Some s' → s ≤ s')
    | None => ∀ q, ¬ hamiltonian g q
    end.
Proof.
  intros Hwf Hrun.
  destruct (find_hamiltonian_path_correct (fuel `max` Z.to_nat (n g)) g Hwf)
    as (r0 & Hrun0 & Hv); [lia|].
  apply (find_hamiltonian_path_mono _ (fuel `max` Z.to_nat (n g))) in Hrun;
    [|lia].
  rewrite Hrun in Hrun0. injection Hrun0 as -> ->. done.
Qed.

(** ** Checking that a concrete graph is well-formed *)

Lemma wf_b_wf g : wf_b g = true → wf g.
Proof.
  unfold wf_b. intros [Hlen Hall]%andb_true_iff.
  apply bool_decide_eq_true in Hlen. split; [done|].
  intros i s v Hs Hv. rewrite forallb_forall in Hall.
  apply list_elem_of_lookup_2, list_elem_of_In, Hall in Hs.
  rewrite forallb_forall in Hs.
  apply list_elem_of_In, Hs in Hv. by apply bool_decide_eq_true in Hv.
Qed.


(** ** Scenarios

    Runs of the model on small graphs, sets iterating in insertion
    order. *)

Example directed_chain :
  (g ← add_edges ins_end (Graph_init 3 true) [(0, 1); (1, 2)];
   find_hamiltonian_path 3 g)
  = Ok (Some [0; 1; 2], mkGraph 3 true [[1]; [2]; []]).
Proof. reflexivity. Qed.

Example directed_isolated :
  (g ← add_edges ins_end (Graph_init 3 true) [(0, 1)];
   find_hamiltonian_path 3 g)
  = Ok (None, mkGraph 3 true [[1]; []; []]).
Proof. reflexivity. Qed.

Example complete_four :
  (g ← add_edges ins_end (Graph_init 4 false)
         [(0, 1); (0, 2); (0, 3); (1, 2); (1, 3); (2, 3)];
   '(r, _) ← find_hamiltonian_path 4 g; Ok r)
  = Ok (Some [0; 1; 2; 3]).
Proof. reflexivity. Qed.

Example wrong_edge_rejected :
  (g ← add_edges ins_end (Graph_init 4 false) [(0, 1); (1, 2); (2, 3)];
   is_hamiltonian_path g [0; 2; 1; 3])
  = Ok false.
Proof. reflexivity. Qed.

Example budget_too_small :
  find_hamiltonian_path 2 path3 = OutOfFuel.
Proof. reflexivity. Qed.

(** * The claims *)

(** C1 — soundness of the search: on a well-formed graph, a path returned
    by [find_hamiltonian_path] (with whatever recursion budget) is
    accepted by [is_hamiltonian_path]. *)
Theorem search_sound fuel g p g' :
  wf g → find_hamiltonian_path fuel g = Ok (Some p, g') →
  is_hamiltonian_path g p = Ok true.
Proof.
  intros Hwf Hrun.
  destruct (find_hamiltonian_path_result _ _ _ _ Hwf Hrun) as [_ [Hp _]].
  destruct (is_hamiltonian_path_spec g p Hwf) as (b & Hb & Hspec).
  rewrite Hb. f_equal. by apply Hspec.
Qed.

Lemma search_sound_witness :
  wf path3
  ∧ find_hamiltonian_path 3 path3 = Ok (Some [0; 1; 2], path3)
  ∧ is_hamiltonian_path path3 [0; 1; 2] = Ok true.
Proof.
  assert (wf path3) as Hwf by (apply wf_b_wf; reflexivity).
  assert (find_hamiltonian_path 3 path3 = Ok (Some [0; 1; 2], path3)) as Hrun
    by reflexivity.
  split; [exact Hwf|]. split; [exact Hrun|].
  exact (search_sound 3 path3 [0; 1; 2] path3 Hwf Hrun).
Defined.

(** C2 — completeness of the search: on a well-formed graph and with a
    budget of [n] nested calls, [find_hamiltonian_path] returns a result;
    it is the no-path result exactly when the graph has no Hamiltonian
    path, and a path whenever one exists. *)
Theorem search_complete fuel g :
  wf g → (Z.to_nat (n g) ≤ fuel)%nat →
  (∃ r, find_hamiltonian_path fuel g = Ok (r, g))
  ∧ (find_hamiltonian_path fuel g = Ok (None, g) ↔ ∀ q, ¬ hamiltonian g q)
  ∧ ((∃ q, hamiltonian g q) →
      ∃ p, find_hamiltonian_path fuel g = Ok (Some p, g) ∧ hamiltonian g p).
Proof.
  intros Hwf Hfuel.
  destruct (find_hamiltonian_path_correct fuel g Hwf Hfuel) as (r & Hrun & Hv).
  split; [by exists r|]. rewrite Hrun. destruct r as [p|].
  - destruct Hv as [Hp _]. split.
    + split; [done|]. intros Hnone. by destruct (Hnone p).
    + intros _. by exists p.
  - split; [done|]. intros [q Hq]. by destruct (Hv q).
Qed.

Lemma search_complete_witness :
  wf two_edges ∧ (Z.to_nat (n two_edges) ≤ 4)%nat
  ∧ (∃ r, find_hamiltonian_path 4 two_edges = Ok (r, two_edges))
  ∧ (find_hamiltonian_path 4 two_edges = Ok (None, two_edges)
     ↔ ∀ q, ¬ hamiltonian two_edges q)
  ∧ ((∃ q, hamiltonian two_edges q) →
      ∃ p, find_hamiltonian_path 4 two_edges = Ok (Some p, two_edges)
        ∧ hamiltonian two_edges p).
Proof.
  assert (wf two_edges) as Hwf by (apply wf_b_wf; reflexivity).
  assert (Z.to_nat (n two_edges) ≤ 4)%nat as Hfuel by (simpl; lia).
  split; [exact Hwf|]. split; [exact Hfuel|].
  exact (search_complete 4 two_edges Hwf Hfuel).
Defined.

(** C3 — the validator is total and exact: on a well-formed graph,
    [is_hamiltonian_path] returns a boolean for every sequence of
    integers, and the boolean is [true] exactly when the sequence has
    length [n], its members are exactly [0 .. n-1], and every consecutive
    pair [(path[i], path[i+1])] has [path[i+1]] in [adj[path[i]]]. *)
Theorem validator_total_exact g path :
  wf g →
  ∃ b, is_hamiltonian_path g path = Ok b
    ∧ (b = true ↔
        Z.of_nat (length path) = n g
        ∧ (∀ v, v ∈ path ↔ 0 ≤ v < n g)
        ∧ (∀ i u v, path !! i = Some u → path !! S i = Some v →
             adjacent g u v)).
Proof. apply is_hamiltonian_path_spec. Qed.

Lemma validator_total_exact_witness :
  wf path3
  ∧ ∃ b, is_hamiltonian_path path3 [0; 2; 1] = Ok b
    ∧ (b = true ↔
        Z.of_nat (length [0; 2; 1]) = n path3
        ∧ (∀ v, v ∈ [0; 2; 1] ↔ 0 ≤ v < n path3)
        ∧ (∀ i u v, [0; 2; 1] !! i = Some u → [0; 2; 1] !! S i = Some v →
             adjacent path3 u v)).
Proof.
  assert (wf path3) as Hwf by (apply wf_b_wf; reflexivity).
  split; [exact Hwf|].
  exact (validator_total_exact path3 [0; 2; 1] Hwf).
Defined.

(** C4 — backtrack atomicity: when [_backtrack] returns [None], the
    working path and the visited markers (and the graph) are what they
    were on entry. *)
Theorem backtrack_failure_restores fuel current st st' :
  _backtrack fuel current st = Ok (None, st') →
  st_path st' = st_path st ∧ st_visited st' = st_visited st
  ∧ st_g st' = st_g st.
Proof.
  intros Hrun. apply backtrack_undone in Hrun as [_ Hsame].
  by rewrite (Hsame eq_refl).
Qed.

Lemma backtrack_failure_restores_witness :
  _backtrack 4 0 stuck = Ok (None, stuck)
  ∧ st_path stuck = st_path stuck ∧ st_visited stuck = st_visited stuck
  ∧ st_g stuck = st_g stuck.
Proof.
  assert (_backtrack 4 0 stuck = Ok (None, stuck)) as Hrun by reflexivity.
  split; [exact Hrun|].
  exact (backtrack_failure_restores 4 0 stuck stuck Hrun).
Defined.

(** C5 — neighbour ordering: on a well-formed graph, for [u] in
    [0 .. n-1] the list returned by [neighbors] holds exactly the members
    of [adj[u]], in ascending order of the size of each member's own
    adjacency set, members of equal size in the iteration order of
    [adj[u]]; for any other [u] it is empty. *)
Theorem neighbors_ordered g u :
  wf g →
  (0 ≤ u < n g →
    ∃ s l, adj g !! Z.to_nat u = Some s ∧ neighbors g u = Ok l
      ∧ l ≡ₚ s
      ∧ StronglySorted (λ x y, (deg g x ≤ deg g y)%nat) l
      ∧ ∀ k, filter (λ x, deg g x = k) l = filter (λ x, deg g x = k) s)
  ∧ (¬ (0 ≤ u < n g) → neighbors g u = Ok []).
Proof.
  intros Hwf. split.
  - by apply neighbors_spec.
  - apply neighbors_out_of_range.
Qed.

Lemma neighbors_ordered_witness :
  wf star
  ∧ neighbors star 0 = Ok [3; 1; 2]
  ∧ neighbors star 1 = Ok [2; 0]
  ∧ (0 ≤ 1 < n star →
      ∃ s l, adj star !! Z.to_nat 1 = Some s ∧ neighbors star 1 = Ok l
        ∧ l ≡ₚ s
        ∧ StronglySorted (λ x y, (deg star x ≤ deg star y)%nat) l
        ∧ ∀ k, filter (λ x, deg star x = k) l
               = filter (λ x, deg star x = k) s)
  ∧ (¬ (0 ≤ 1 < n star) → neighbors star 1 = Ok []).
Proof.
  assert (wf star) as Hwf by (apply wf_b_wf; reflexivity).
  split; [exact Hwf|]. split; [reflexivity|]. split; [reflexivity|].
  exact (neighbors_ordered star 1 Hwf).
Defined.

(** C6 — termination and depth bound: from a state of the search on a
    well-formed graph (the markers agree with the repetition-free working
    path), the path holds between 1 and [n] vertices and [_backtrack]
    returns within [n + 1 - len(path)] nested calls, hence within [n]:
    every nested call works on a path one vertex longer. *)
Theorem backtrack_terminates current st :
  search_inv current st →
  (1 ≤ length (st_path st) ≤ Z.to_nat (n (st_g st)))%nat
  ∧ ∀ fuel, (Z.to_nat (n (st_g st)) + 1 - length (st_path st) ≤ fuel)%nat →
      ∃ r st', _backtrack fuel current st = Ok (r, st').
Proof.
  intros Hinv.
  pose proof (vertices_bound _ _ (si_nodup _ _ Hinv) (si_range _ _ Hinv)) as Hle.
  assert (1 ≤ length (st_path st))%nat as Hge.
  { pose proof (si_last _ _ Hinv) as Hlast.
    destruct (st_path st); [done|simpl; lia]. }
  split; [lia|]. intros fuel Hfuel.
  destruct (backtrack_correct fuel current st Hinv) as (r & st' & Hrun & _);
    [lia|].
  by exists r, st'.
Qed.

Lemma backtrack_terminates_witness :
  search_inv 1 started
  ∧ (1 ≤ length (st_path started) ≤ Z.to_nat (n (st_g started)))%nat
  ∧ ∀ fuel,
      (Z.to_nat (n (st_g started)) + 1 - length (st_path started) ≤ fuel)%nat →
      ∃ r st', _backtrack fuel 1 started = Ok (r, st').
Proof.
  assert (search_inv 1 started) as Hinv.
  { apply (start_inv path3 1); [apply wf_b_wf; reflexivity|simpl; lia]. }
  split; [exact Hinv|].
  exact (backtrack_terminates 1 started Hinv).
Defined.

(** C7 — adjacency invariant: whatever the iteration order of the sets,
    any sequence of [add_edge] calls on a freshly constructed graph
    runs without error and leaves a graph with [n] adjacency sets in which
    every stored identifier lies in [0 .. n-1] and differs from the vertex
    owning the set, and in which, when the graph is undirected, [v] is in
    [adj[u]] exactly when [u] is in [adj[v]]. *)
Theorem add_edge_invariant (ins : Z → list Z → list Z) n0 d es :
  (∀ x s, x ∉ s → ins x s ≡ₚ x :: s) →
  ∃ g, add_edges ins (Graph_init n0 d) es = Ok g
    ∧ n g = n0 ∧ directed g = d ∧ length (adj g) = Z.to_nat n0
    ∧ (∀ i s v, adj g !! i = Some s → v ∈ s → 0 ≤ v < n0 ∧ v ≠ Z.of_nat i)
    ∧ (d = false → ∀ u v, adjacent g u v ↔ adjacent g v u).
Proof.
  intros Hins.
  destruct (add_edges_inv ins Hins es _ (Graph_init_inv n0 d))
    as (g & Hrun & [[Hlen Hrange] Hnd Hloop Hsym] & Hn & Hd).
  simpl in Hn, Hd. subst n0 d.
  exists g. split; [done|]. do 3 (split; [done|]). split.
  - intros i s v Hs Hv. split; [by eapply Hrange|].
    intros ->. apply (Hloop (Z.of_nat i)). split; [lia|].
    exists s. by rewrite Nat2Z.id.
  - intros Hd u v. split; by apply Hsym.
Qed.

Lemma add_edge_invariant_witness :
  (∀ x s, x ∉ s → ins_end x s ≡ₚ x :: s)
  ∧ add_edges ins_end (Graph_init 3 false) [(0, 1); (1, 2); (2, 2); (5, 0); (1, 0)]
    = Ok path3
  ∧ ∃ g, add_edges ins_end (Graph_init 3 false)
           [(0, 1); (1, 2); (2, 2); (5, 0); (1, 0)] = Ok g
    ∧ n g = 3 ∧ directed g = false ∧ length (adj g) = Z.to_nat 3
    ∧ (∀ i s v, adj g !! i = Some s → v ∈ s → 0 ≤ v < 3 ∧ v ≠ Z.of_nat i)
    ∧ (false = false → ∀ u v, adjacent g u v ↔ adjacent g v u).
Proof.
  split; [exact ins_end_perm|]. split; [reflexivity|].
  exact (add_edge_invariant ins_end 3 false
           [(0, 1); (1, 2); (2, 2); (5, 0); (1, 0)] ins_end_perm).
Defined.

(** C8 — silent rejection and idempotence: whatever the iteration order
    of the sets, [add_edge(u, v)] with [u == v] or an endpoint outside
    [0 .. n-1] returns without error and leaves the graph as it was; and
    calling [add_edge] twice with the same arguments gives what calling it
    once gives. *)
Theorem add_edge_rejects_and_idempotent (ins : Z → list Z → list Z) g u v :
  (∀ x s, x ∉ s → ins x s ≡ₚ x :: s) →
  (u = v ∨ ¬ (0 ≤ u < n g) ∨ ¬ (0 ≤ v < n g) → add_edge ins g u v = Ok g)
  ∧ (g1 ← add_edge ins g u v; add_edge ins g1 u v) = add_edge ins g u v.
Proof.
  intros Hins. split.
  - apply add_edge_rejected.
  - by apply add_edge_twice.
Qed.

Lemma add_edge_rejects_and_idempotent_witness :
  (∀ x s, x ∉ s → ins_end x s ≡ₚ x :: s)
  ∧ add_edge ins_end (Graph_init 3 false) 0 2
    = Ok (mkGraph 3 false [[2]; []; [0]])
  ∧ (0 = 2 ∨ ¬ (0 ≤ 0 < n (Graph_init 3 false))
       ∨ ¬ (0 ≤ 2 < n (Graph_init 3 false)) →
     add_edge ins_end (Graph_init 3 false) 0 2 = Ok (Graph_init 3 false))
  ∧ (g1 ← add_edge ins_end (Graph_init 3 false) 0 2; add_edge ins_end g1 0 2)
    = add_edge ins_end (Graph_init 3 false) 0 2.
Proof.
  split; [exact ins_end_perm|]. split; [reflexivity|].
  exact (add_edge_rejects_and_idempotent ins_end (Graph_init 3 false) 0 2
           ins_end_perm).
Defined.

(** C9 — the search is read-only: whatever [find_hamiltonian_path]
    returns, the graph it leaves behind has the vertex count, the
    directedness and the adjacency sets it was given. *)
Theorem search_read_only fuel g r g' :
  find_hamiltonian_path fuel g = Ok (r, g') →
  n g' = n g ∧ directed g' = directed g ∧ adj g' = adj g.
Proof.
  unfold find_hamiltonian_path. repeat case_bool_decide.
  - by intros [= _ <-].
  - by intros [= _ <-].
  - by intros ->%try_starts_frame.
Qed.

Lemma search_read_only_witness :
  find_hamiltonian_path 4 two_edges = Ok (None, two_edges)
  ∧ n two_edges = n two_edges ∧ directed two_edges = directed two_edges
  ∧ adj two_edges = adj two_edges.
Proof.
  assert (find_hamiltonian_path 4 two_edges = Ok (None, two_edges)) as Hrun
    by reflexivity.
  split; [exact Hrun|].
  exact (search_read_only 4 two_edges None two_edges Hrun).
Defined.

(** C10 — minimal start: on a well-formed graph with at least two
    vertices, a path returned by [find_hamiltonian_path] is Hamiltonian
    and its first vertex is the least vertex at which a Hamiltonian path
    of the graph starts. *)
Theorem search_minimal_start fuel g p g' :
  wf g → 2 ≤ n g → find_hamiltonian_path fuel g = Ok (Some p, g') →
  ∃ s, head p = Some s ∧ hamiltonian g p
    ∧ ∀ s' q, hamiltonian g q → head q = Some s' → s ≤ s'.
Proof.
  intros Hwf Hn Hrun.
  destruct (find_hamiltonian_path_result _ _ _ _ Hwf Hrun)
    as [_ [Hp Hmin]].
  destruct (Hmin Hn) as (s & Hs & Hleast). by exists s.
Qed.

Lemma search_minimal_start_witness :
  wf chain ∧ 2 ≤ n chain
  ∧ find_hamiltonian_path 3 chain = Ok (Some [2; 0; 1], chain)
  ∧ ∃ s, head [2; 0; 1] = Some s ∧ hamiltonian chain [2; 0; 1]
      ∧ ∀ s' q, hamiltonian chain q → head q = Some s' → s ≤ s'.
Proof.
  assert (wf chain) as Hwf by (apply wf_b_wf; reflexivity).
  assert (2 ≤ n chain) as Hn by (simpl; lia).
  assert (find_hamiltonian_path 3 chain = Ok (Some [2; 0; 1], chain)) as Hrun
    by reflexivity.
  split; [exact Hwf|]. split; [exact Hn|]. split; [exact Hrun|].
  exact (search_minimal_start 3 chain [2; 0; 1] chain Hwf Hn Hrun).
Defined.

(** * Further properties *)

(** ** The effect of [add_edge] on the adjacency *)

Lemma wf_adjacent g :
  wf g ↔ length (adj g) = Z.to_nat (n g)
         ∧ ∀ a b, adjacent g a b → 0 ≤ b < n g.
Proof.
  split.
  - intros [Hlen Hrange]. split; [done|].
    intros a b [_ (s & Hs & Hb)]. by eapply Hrange.
  - intros [Hlen Hrange]. split; [done|]. intros i s v Hs Hv.
    apply (Hrange (Z.of_nat i)). split; [lia|]. exists s. by rewrite Nat2Z.id.
Qed.

Section AddEdgeEffect.
Variable ins : Z → list Z → list Z.
Hypothesis ins_perm : ∀ x s, x ∉ s → ins x s ≡ₚ x :: s.

Lemma adjacent_added g u v a b :
  length (adj g) = Z.to_nat (n g) → 0 ≤ u < n g → 0 ≤ v < n g →
  adjacent (mkGraph (n g) (directed g) (added ins g u v)) a b
  ↔ adjacent g a b ∨ (a = u ∧ b = v) ∨ (directed g = false ∧ a = v ∧ b = u).
Proof.
  intros Hlen Hu Hv. rewrite !adjacent_member. simpl.
  rewrite (member_added ins ins_perm) by done.
  split; [intros [Ha [?|[[? ?]|(? & ? & ?)]]]|]; intuition lia.
Qed.

Lemma add_edge_effect g u v :
  length (adj g) = Z.to_nat (n g) →
  ∃ g', add_edge ins g u v = Ok g'
    ∧ n g' = n g ∧ directed g' = directed g
    ∧ length (adj g') = Z.to_nat (n g')
    ∧ ∀ a b, adjacent g' a b ↔
        adjacent g a b ∨ edge_of (n g) (directed g) [(u, v)] a b.
Proof.
  intros Hlen.
  destruct (decide (u = v ∨ ¬ (0 ≤ u < n g) ∨ ¬ (0 ≤ v < n g))) as [Hrej|Hacc].
  - exists g. rewrite add_edge_rejected by done. do 4 (split; [done|]).
    intros a b. split; [by left|]. intros [?|Hedge]; [done|].
    destruct Hedge as (u' & v' & [= -> ->]%list_elem_of_singleton & Hne & Hu & Hv & _).
    tauto.
  - assert (u ≠ v ∧ 0 ≤ u < n g ∧ 0 ≤ v < n g) as (Hne & Hu & Hv) by lia.
    eexists. rewrite add_edge_accepted by done.
    split; [done|]. simpl. do 2 (split; [done|]). split.
    { unfold added. destruct (directed g); by rewrite ?length_alter. }
    intros a b. rewrite adjacent_added by done. unfold edge_of. split.
    + intros [?|H]; [by left|]. right. exists u, v.
      rewrite list_elem_of_singleton. tauto.
    + intros [?|(u' & v' & [= -> ->]%list_elem_of_singleton & _ & _ & _ & H)];
        tauto.
Qed.

Lemma edge_of_cons n0 d u v es a b :
  edge_of n0 d ((u, v) :: es) a b
  ↔ edge_of n0 d [(u, v)] a b ∨ edge_of n0 d es a b.
Proof.
  unfold edge_of. split.
  - intros (u' & v' & [[= -> ->]|Hin]%elem_of_cons & H).
    + left. exists u, v. split; [left|done].
    + right. by exists u', v'.
  - intros [(u' & v' & [= -> ->]%list_elem_of_singleton & H)
           |(u' & v' & Hin & H)].
    + exists u, v. split; [left|done].
    + exists u', v'. split; [by right|done].
Qed.

Lemma add_edges_effect es : ∀ g,
  length (adj g) = Z.to_nat (n g) →
  ∃ g', add_edges ins g es = Ok g'
    ∧ n g' = n g ∧ directed g' = directed g
    ∧ length (adj g') = Z.to_nat (n g')
    ∧ ∀ a b, adjacent g' a b ↔
        adjacent g a b ∨ edge_of (n g) (directed g) es a b.
Proof.
  induction es as [|[u v] es IH]; intros g Hlen; simpl.
  { exists g. do 4 (split; [done|]). intros a b. split; [by left|].
    intros [?|(u & v & Hin & _)]; [done|]. by apply elem_of_nil in Hin. }
  destruct (add_edge_effect g u v Hlen) as (g1 & Hrun & Hn & Hd & Hlen1 & Hadj).
  rewrite Hrun. simpl.
  destruct (IH g1 Hlen1) as (g' & Hrun' & Hn' & Hd' & Hlen' & Hadj').
  exists g'. split; [done|]. split; [congruence|]. split; [congruence|].
  split; [done|]. intros a b.
  rewrite Hadj', Hadj, Hn, Hd, (edge_of_cons _ _ u v es). tauto.
Qed.

Lemma add_edge_wf g u v :
  wf g →
  ∃ g', add_edge ins g u v = Ok g' ∧ wf g' ∧ n g' = n g
    ∧ ∀ a b, adjacent g a b → adjacent g' a b.
Proof.
  intros [Hlen Hrange]%wf_adjacent.
  destruct (add_edge_effect g u v Hlen) as (g' & Hrun & Hn & Hd & Hlen' & Hadj).
  exists g'. split; [done|]. split; [|split; [done|]].
  - apply wf_adjacent. split; [done|]. intros a b [?|Hedge]%Hadj.
    + rewrite Hn. by eapply Hrange.
    + destruct Hedge as (u' & v' & _ & _ & Hu & Hv & [[_ ->]|(_ & _ & ->)]);
        by rewrite Hn.
  - intros a b Hab. apply Hadj. by left.
Qed.

Lemma built_adjacency_of n0 d es g :
  add_edges ins (Graph_init n0 d) es = Ok g →
  ∀ a b, adjacent g a b ↔ edge_of n0 d es a b.
Proof.
  intros Hrun.
  destruct (add_edges_effect es (Graph_init n0 d))
    as (g' & Hrun' & _ & _ & _ & Hadj); [apply length_replicate|].
  assert (g' = g) as -> by congruence.
  intros a b. rewrite Hadj. simpl. split; [|by right].
  intros [[_ (s & [-> _]%lookup_replicate & Hb)]|?]; [|done].
  by apply elem_of_nil in Hb.
Qed.

Lemma built_graph_inv n0 d es g :
  add_edges ins (Graph_init n0 d) es = Ok g → graph_inv g.
Proof.
  intros Hrun.
  destruct (add_edges_inv ins ins_perm es _ (Graph_init_inv n0 d))
    as (g' & Hrun' & Hinv & _).
  congruence.
Qed.
End AddEdgeEffect.

(** ** Hamiltonian paths under a change of graph *)

Lemma hamiltonian_mono g g' p :
  n g' = n g → (∀ a b, adjacent g a b → adjacent g' a b) →
  hamiltonian g p → hamiltonian g' p.
Proof.
  intros Hn Hsub (Hlen & Hmem & Hwalk). rewrite <- Hn in Hlen.
  split; [done|]. split.
  - intros v. by rewrite Hn.
  - intros i u v Hu Hv. by eapply Hsub, Hwalk.
Qed.

Lemma same_edges_sym g1 g2 : same_edges g1 g2 → same_edges g2 g1.
Proof. intros [Hn Hadj]. split; [done|]. intros a b. by rewrite Hadj. Qed.

Lemma hamiltonian_same_edges g1 g2 p :
  same_edges g1 g2 → (hamiltonian g1 p ↔ hamiltonian g2 p).
Proof.
  intros [Hn Hadj]. split; apply hamiltonian_mono; try done.
  - intros a b. by rewrite Hadj.
  - intros a b. by rewrite Hadj.
Qed.

Lemma hamiltonian_reverse g p :
  (∀ a b, adjacent g a b → adjacent g b a) →
  hamiltonian g p → hamiltonian g (reverse p).
Proof.
  intros Hsym (Hlen & Hmem & Hwalk). split; [by rewrite length_reverse|].
  split.
  - intros v. by rewrite elem_of_reverse.
  - intros i u v [Hu Hi]%reverse_lookup_Some [Hv Hi']%reverse_lookup_Some.
    apply Hsym. apply (Hwalk (length p - S (S i))%nat); [done|].
    by replace (S (length p - S (S i))) with (length p - S i)%nat by lia.
Qed.

Lemma is_hamiltonian_path_iff g p :
  wf g → (is_hamiltonian_path g p = Ok true ↔ hamiltonian g p).
Proof.
  intros Hwf. destruct (is_hamiltonian_path_spec g p Hwf) as (b & Hb & Hspec).
  rewrite Hb. rewrite <- Hspec. split; [by intros [= ->]|by intros ->].
Qed.

(** Two validations agree as soon as the sequences are Hamiltonian
    together. *)
Lemma is_hamiltonian_path_agree g1 p1 g2 p2 :
  wf g1 → wf g2 → (hamiltonian g1 p1 ↔ hamiltonian g2 p2) →
  is_hamiltonian_path g1 p1 = is_hamiltonian_path g2 p2.
Proof.
  intros Hwf1 Hwf2 Hiff.
  destruct (is_hamiltonian_path_spec g1 p1 Hwf1) as (b1 & -> & H1).
  destruct (is_hamiltonian_path_spec g2 p2 Hwf2) as (b2 & -> & H2).
  f_equal. destruct b1, b2; try done.
  - symmetry. apply H2, Hiff, H1. done.
  - apply H1, Hiff, H2. done.
Qed.

(** ** The neighbour lists of a graph that satisfies the invariant *)

Lemma neighbors_inv g u l :
  graph_inv g → neighbors g u = Ok l →
  NoDup l ∧ (u ∉ l) ∧ (∀ v, v ∈ l ↔ 0 ≤ u < n g ∧ adjacent g u v).
Proof.
  intros [Hwf Hnd Hloop Hsym] Hl.
  destruct (decide (0 ≤ u < n g)) as [Hu|Hu].
  - destruct (neighbors_spec g u Hwf Hu) as (s & l' & Hs & Hl' & Hp & _).
    assert (l' = l) as -> by congruence.
    split; [rewrite Hp; by eapply Hnd|]. split.
    + rewrite Hp. intros Hin. apply (Hloop u). split; [lia|eauto].
    + intros v. rewrite Hp. split.
      * intros Hv. split; [done|]. split; [lia|eauto].
      * intros [_ [_ (s' & Hs' & Hv)]]. congruence.
  - rewrite neighbors_out_of_range in Hl by done. injection Hl as <-.
    split; [constructor|]. split; [apply not_elem_of_nil|].
    intros v. split; [by intros ?%elem_of_nil|tauto].
Qed.

(** ** What a successful call of [_backtrack] leaves behind *)

Lemma for_neighbors_completed rec :
  (∀ c st, undone st (rec c st)) → (∀ c st, completed st (rec c st)) →
  ∀ nbs st, completed st (for_neighbors rec nbs st).
Proof.
  intros Hundo Hrec nbs.
  induction nbs as [|nb rest IH]; intros st p st'; simpl; [done|].
  destruct (py_get (st_visited st) nb) as [seen| |] eqn:Hseen; simpl; try done.
  destruct seen; simpl; [apply IH|].
  apply py_get_Ok in Hseen as (k & Hk & Hvis).
  rewrite (py_set_index _ _ k) by done. simpl.
  destruct (rec nb _) as [[result st2]| |] eqn:Hcall; simpl; try done.
  destruct result as [q|].
  - intros [= <- <-]. apply Hrec in Hcall as (Hpath & Hpre & Hlen).
    simpl in Hpre, Hlen. split; [done|]. split; [|done].
    by eapply prefix_app_l.
  - apply Hundo in Hcall as [_ Hsame]. rewrite (Hsame eq_refl). simpl.
    rewrite py_pop_snoc. simpl.
    rewrite (py_set_restore _ _ k) by done. simpl.
    destruct st as [g0 path0 vis0]. apply IH.
Qed.

Lemma backtrack_completed fuel c st : completed st (_backtrack fuel c st).
Proof.
  revert c st. induction fuel as [|fuel IH]; intros c st p st'; simpl; [done|].
  case_bool_decide as Hlen.
  { intros [= <- <-]. done. }
  destruct (neighbors (st_g st) c) as [nbs| |]; simpl; try done.
  apply for_neighbors_completed; [|done].
  intros c' st0. apply backtrack_undone.
Qed.

(** Another insertion policy: new members go first. *)
Lemma cons_perm (x : Z) (s : list Z) : x ∉ s → cons x s ≡ₚ x :: s.
Proof. done. Qed.

(** X1 — [add_edge] installs the edge: on a graph with one adjacency set
    per vertex, a call with distinct endpoints in range returns without
    error, keeps the vertex count and the directedness, and afterwards
    [b] is in [adj[a]] exactly if it was before, or [(a, b)] is the new
    edge, or the graph is undirected and [(a, b)] is its reverse. *)
Theorem add_edge_installs (ins : Z → list Z → list Z) g u v :
  (∀ x s, x ∉ s → ins x s ≡ₚ x :: s) →
  length (adj g) = Z.to_nat (n g) → u ≠ v → 0 ≤ u < n g → 0 ≤ v < n g →
  ∃ g', add_edge ins g u v = Ok g'
    ∧ n g' = n g ∧ directed g' = directed g
    ∧ length (adj g') = length (adj g)
    ∧ ∀ a b, adjacent g' a b ↔
        adjacent g a b ∨ (a = u ∧ b = v)
        ∨ (directed g = false ∧ a = v ∧ b = u).
Proof.
  intros Hins Hlen Hne Hu Hv. eexists.
  rewrite add_edge_accepted by done. split; [done|]. simpl.
  do 2 (split; [done|]). split.
  - unfold added. destruct (directed g); by rewrite ?length_alter.
  - intros a b. by apply adjacent_added.
Qed.

Lemma add_edge_installs_witness :
  (∀ x s, x ∉ s → ins_end x s ≡ₚ x :: s)
  ∧ length (adj chain) = Z.to_nat (n chain) ∧ 1 ≠ 2
  ∧ 0 ≤ 1 < n chain ∧ 0 ≤ 2 < n chain
  ∧ add_edge ins_end chain 1 2 = Ok (mkGraph 3 true [[1]; [2]; [0]])
  ∧ ∃ g', add_edge ins_end chain 1 2 = Ok g'
    ∧ n g' = n chain ∧ directed g' = directed chain
    ∧ length (adj g') = length (adj chain)
    ∧ ∀ a b, adjacent g' a b ↔
        adjacent chain a b ∨ (a = 1 ∧ b = 2)
        ∨ (directed chain = false ∧ a = 2 ∧ b = 1).
Proof.
  assert (length (adj chain) = Z.to_nat (n chain)) as Hlen by reflexivity.
  assert (1 ≠ 2) as Hne by lia.
  assert (0 ≤ 1 < n chain) as Hu by (simpl; lia).
  assert (0 ≤ 2 < n chain) as Hv by (simpl; lia).
  split; [exact ins_end_perm|]. split; [exact Hlen|]. split; [exact Hne|].
  split; [exact Hu|]. split; [exact Hv|]. split; [reflexivity|].
  exact (add_edge_installs ins_end chain 1 2 ins_end_perm Hlen Hne Hu Hv).
Defined.

(** X2 — the adjacency of a built graph is a function of the set of
    requested edges: after any sequence of [add_edge] calls on a fresh
    graph, [b] is in [adj[a]] exactly when some call asked for the edge
    [(a, b)] (or, undirected, for [(b, a)]) with distinct endpoints in
    range; order and repetition of the calls and the iteration order of
    the sets play no part. *)
Theorem built_adjacency (ins : Z → list Z → list Z) n0 d es :
  (∀ x s, x ∉ s → ins x s ≡ₚ x :: s) →
  ∃ g, add_edges ins (Graph_init n0 d) es = Ok g
    ∧ ∀ a b, adjacent g a b ↔ edge_of n0 d es a b.
Proof.
  intros Hins.
  destruct (add_edges_effect ins Hins es (Graph_init n0 d))
    as (g & Hrun & _ & _ & _ & Hadj); [apply length_replicate|].
  exists g. split; [done|]. intros a b. rewrite Hadj. simpl. split; [|by right].
  intros [[_ (s & [-> _]%lookup_replicate & Hb)]|?]; [|done].
  by apply elem_of_nil in Hb.
Qed.

Lemma built_adjacency_witness :
  (∀ x s, x ∉ s → ins_end x s ≡ₚ x :: s)
  ∧ ∃ g, add_edges ins_end (Graph_init 3 false) [(1, 2); (0, 1); (2, 1); (3, 0)]
         = Ok g
    ∧ ∀ a b, adjacent g a b
        ↔ edge_of 3 false [(1, 2); (0, 1); (2, 1); (3, 0)] a b.
Proof.
  split; [exact ins_end_perm|].
  exact (built_adjacency ins_end 3 false [(1, 2); (0, 1); (2, 1); (3, 0)]
           ins_end_perm).
Defined.

(** X3 — neighbour lists are clean: on a graph that satisfies the
    invariant, [neighbors(u)] returns, for every integer [u], a list
    without repetitions, without [u] itself, of vertices in range; and in
    an undirected graph [v] is listed for [u] exactly when [u] is listed
    for [v]. *)
Theorem neighbors_clean g u :
  graph_inv g →
  ∃ l, neighbors g u = Ok l
    ∧ NoDup l ∧ (u ∉ l) ∧ (∀ v, v ∈ l → 0 ≤ v < n g)
    ∧ (directed g = false →
        ∀ v, v ∈ l ↔ ∃ l', neighbors g v = Ok l' ∧ u ∈ l').
Proof.
  intros Hinv. pose proof Hinv as [Hwf _ _ Hsym].
  assert (∀ w, ∃ l, neighbors g w = Ok l) as Htotal.
  { intros w. destruct (decide (0 ≤ w < n g)) as [Hw|Hw].
    - destruct (neighbors_adjacent g w Hwf Hw) as (l & Hl & _). eauto.
    - exists []. by apply neighbors_out_of_range. }
  destruct (Htotal u) as [l Hl]. exists l. split; [done|].
  destruct (neighbors_inv g u l Hinv Hl) as (Hnd & Hloop & Hmem).
  split; [done|]. split; [done|]. split.
  - intros v [_ [_ (s & Hs & Hv)]]%Hmem. by eapply wf_range.
  - intros Hd v. split.
    + intros [Hu Hadj]%Hmem. destruct (Htotal v) as [l' Hl'].
      exists l'. split; [done|].
      apply (neighbors_inv g v l' Hinv Hl'). split; [|by apply Hsym].
      destruct Hadj as [_ (s & Hs & Hv)]. by eapply wf_range.
    + intros (l' & Hl' & [Hv Hadj]%(neighbors_inv g v l' Hinv Hl')).
      apply Hmem. split; [|by apply Hsym].
      destruct Hadj as [_ (s & Hs & Hu)]. by eapply wf_range.
Qed.

Lemma neighbors_clean_witness :
  graph_inv star
  ∧ ∃ l, neighbors star 0 = Ok l
    ∧ NoDup l ∧ (0 ∉ l) ∧ (∀ v, v ∈ l → 0 ≤ v < n star)
    ∧ (directed star = false →
        ∀ v, v ∈ l ↔ ∃ l', neighbors star v = Ok l' ∧ 0 ∈ l').
Proof.
  assert (graph_inv star) as Hinv.
  { apply (built_graph_inv ins_end ins_end_perm 4 false
             [(0, 3); (0, 1); (0, 2); (1, 2)]). reflexivity. }
  split; [exact Hinv|]. exact (neighbors_clean star 0 Hinv).
Defined.

(** X4 — the validator reads an undirected path in both directions: on a
    graph that satisfies the invariant and is undirected, a sequence and
    its reversal get the same answer from [is_hamiltonian_path]. *)
Theorem validator_reversal g path :
  graph_inv g → directed g = false →
  is_hamiltonian_path g (reverse path) = is_hamiltonian_path g path.
Proof.
  intros [Hwf _ _ Hsym] Hd. specialize (Hsym Hd).
  apply is_hamiltonian_path_agree; try done. split.
  - intros H%hamiltonian_reverse; [|done]. by rewrite reverse_involutive in H.
  - by apply hamiltonian_reverse.
Qed.

Lemma validator_reversal_witness :
  graph_inv path3 ∧ directed path3 = false
  ∧ is_hamiltonian_path path3 (reverse [2; 1; 0]) = Ok true
  ∧ is_hamiltonian_path path3 (reverse [2; 1; 0])
    = is_hamiltonian_path path3 [2; 1; 0].
Proof.
  assert (graph_inv path3) as Hinv.
  { apply (built_graph_inv ins_end ins_end_perm 3 false [(0, 1); (1, 2)]).
    reflexivity. }
  assert (directed path3 = false) as Hd by reflexivity.
  split; [exact Hinv|]. split; [exact Hd|]. split; [reflexivity|].
  exact (validator_reversal path3 [2; 1; 0] Hinv Hd).
Defined.

(** X5 — adding an edge never invalidates a path: if the validator
    accepts a sequence on a well-formed graph, then any [add_edge] call
    succeeds and the validator still accepts the sequence afterwards. *)
Theorem validator_survives_add_edge (ins : Z → list Z → list Z) g u v path :
  (∀ x s, x ∉ s → ins x s ≡ₚ x :: s) →
  wf g → is_hamiltonian_path g path = Ok true →
  ∃ g', add_edge ins g u v = Ok g' ∧ is_hamiltonian_path g' path = Ok true.
Proof.
  intros Hins Hwf Hp%is_hamiltonian_path_iff; [|done].
  destruct (add_edge_wf ins Hins g u v Hwf) as (g' & Hrun & Hwf' & Hn & Hsub).
  exists g'. split; [done|]. apply is_hamiltonian_path_iff; [done|].
  by eapply hamiltonian_mono.
Qed.

Lemma validator_survives_add_edge_witness :
  (∀ x s, x ∉ s → ins_end x s ≡ₚ x :: s)
  ∧ wf path3 ∧ is_hamiltonian_path path3 [0; 1; 2] = Ok true
  ∧ ∃ g', add_edge ins_end path3 2 0 = Ok g'
      ∧ is_hamiltonian_path g' [0; 1; 2] = Ok true.
Proof.
  assert (wf path3) as Hwf by (apply wf_b_wf; reflexivity).
  assert (is_hamiltonian_path path3 [0; 1; 2] = Ok true) as Hp by reflexivity.
  split; [exact ins_end_perm|]. split; [exact Hwf|]. split; [exact Hp|].
  exact (validator_survives_add_edge ins_end path3 2 0 [0; 1; 2]
           ins_end_perm Hwf Hp).
Defined.

(** X6 — what a success leaves behind: when [_backtrack] returns a path,
    from whatever state and with whatever budget, the working path is
    left equal to the returned path (the moves of a success are not
    undone), the returned path extends the path the call was given, it
    holds [n] vertices, and the graph is as it was. *)
Theorem backtrack_success_state fuel current st p st' :
  _backtrack fuel current st = Ok (Some p, st') →
  st_path st' = p ∧ st_path st `prefix_of` p
  ∧ Z.of_nat (length p) = n (st_g st) ∧ st_g st' = st_g st.
Proof.
  intros Hrun.
  destruct (backtrack_completed _ _ _ _ _ Hrun) as (Hp & Hpre & Hlen).
  destruct (backtrack_undone _ _ _ _ _ Hrun) as [Hg _]. done.
Qed.

Lemma backtrack_success_state_witness :
  _backtrack 4 3 (mkState star [3] [false; false; false; true])
  = Ok (Some [3; 0; 1; 2], mkState star [3; 0; 1; 2] [true; true; true; true])
  ∧ st_path (mkState star [3; 0; 1; 2] [true; true; true; true]) = [3; 0; 1; 2]
  ∧ st_path (mkState star [3] [false; false; false; true])
      `prefix_of` [3; 0; 1; 2]
  ∧ Z.of_nat (length [3; 0; 1; 2])
    = n (st_g (mkState star [3] [false; false; false; true]))
  ∧ st_g (mkState star [3; 0; 1; 2] [true; true; true; true])
    = st_g (mkState star [3] [false; false; false; true]).
Proof.
  assert (_backtrack 4 3 (mkState star [3] [false; false; false; true])
          = Ok (Some [3; 0; 1; 2],
                mkState star [3; 0; 1; 2] [true; true; true; true])) as Hrun
    by reflexivity.
  split; [exact Hrun|].
  exact (backtrack_success_state 4 3 _ _ _ Hrun).
Defined.

(** ** Results on graphs with the same edges *)

Lemma find_same_edges fuel g1 g2 :
  wf g1 → wf g2 → same_edges g1 g2 → (Z.to_nat (n g1) ≤ fuel)%nat →
  ∃ r1 r2, find_hamiltonian_path fuel g1 = Ok (r1, g1)
    ∧ find_hamiltonian_path fuel g2 = Ok (r2, g2)
    ∧ (r1 = None ↔ r2 = None)
    ∧ (2 ≤ n g1 → r1 ≫= head = r2 ≫= head).
Proof.
  intros Hwf1 Hwf2 Hsame Hfuel. pose proof Hsame as [Hn _].
  destruct (find_hamiltonian_path_correct fuel g1 Hwf1 Hfuel)
    as (r1 & Hrun1 & Hv1).
  destruct (find_hamiltonian_path_correct fuel g2 Hwf2) as (r2 & Hrun2 & Hv2);
    [lia|].
  exists r1, r2. split; [done|]. split; [done|].
  destruct r1 as [p1|], r2 as [p2|]; simpl.
  - split; [done|]. intros Hn2.
    destruct Hv1 as [Hp1 Hmin1], Hv2 as [Hp2 Hmin2].
    destruct (Hmin1 Hn2) as (s1 & Hs1 & Hleast1).
    destruct Hmin2 as (s2 & Hs2 & Hleast2); [lia|].
    rewrite Hs1, Hs2. f_equal. apply Z.le_antisymm.
    + apply (Hleast1 s2 p2); [|done]. by apply (hamiltonian_same_edges g1 g2).
    + apply (Hleast2 s1 p1); [|done]. by apply (hamiltonian_same_edges g1 g2).
  - destruct Hv1 as [Hp1 _]. destruct (Hv2 p1).
    by apply (hamiltonian_same_edges g1 g2).
  - destruct Hv2 as [Hp2 _]. destruct (Hv1 p2).
    by apply (hamiltonian_same_edges g1 g2).
  - done.
Qed.

Lemma edge_of_same n0 d es1 es2 a b :
  (∀ e, e ∈ es1 ↔ e ∈ es2) → edge_of n0 d es1 a b → edge_of n0 d es2 a b.
Proof.
  intros Hes (u & v & Hin & H). exists u, v. split; [by apply Hes|done].
Qed.

(** X7 — the outcome does not depend on how the graph was entered: two
    graphs built from edge lists with the same members, in any order, with
    any repetitions and under any iteration orders of the sets, both make
    [find_hamiltonian_path] return, either both the no-path result or
    both a path, and (from two vertices on) paths with the same first
    vertex. *)
Theorem search_independent_of_insertion
    (ins1 ins2 : Z → list Z → list Z) n0 d es1 es2 fuel :
  (∀ x s, x ∉ s → ins1 x s ≡ₚ x :: s) →
  (∀ x s, x ∉ s → ins2 x s ≡ₚ x :: s) →
  (∀ e, e ∈ es1 ↔ e ∈ es2) → (Z.to_nat n0 ≤ fuel)%nat →
  ∃ g1 g2 r1 r2,
    add_edges ins1 (Graph_init n0 d) es1 = Ok g1
    ∧ add_edges ins2 (Graph_init n0 d) es2 = Ok g2
    ∧ find_hamiltonian_path fuel g1 = Ok (r1, g1)
    ∧ find_hamiltonian_path fuel g2 = Ok (r2, g2)
    ∧ (r1 = None ↔ r2 = None)
    ∧ (2 ≤ n0 → r1 ≫= head = r2 ≫= head).
Proof.
  intros Hins1 Hins2 Hes Hfuel.
  destruct (add_edges_inv ins1 Hins1 es1 _ (Graph_init_inv n0 d))
    as (g1 & Hrun1 & [Hwf1 _ _ _] & Hn1 & _).
  destruct (add_edges_inv ins2 Hins2 es2 _ (Graph_init_inv n0 d))
    as (g2 & Hrun2 & [Hwf2 _ _ _] & Hn2 & _).
  pose proof (built_adjacency_of ins1 Hins1 n0 d es1 g1 Hrun1) as Hadj1.
  pose proof (built_adjacency_of ins2 Hins2 n0 d es2 g2 Hrun2) as Hadj2.
  simpl in Hn1, Hn2.
  assert (same_edges g1 g2) as Hsame.
  { split; [congruence|]. intros a b. rewrite Hadj1, Hadj2.
    split; apply edge_of_same; [done|]. intros e. by rewrite Hes. }
  destruct (find_same_edges fuel g1 g2 Hwf1 Hwf2 Hsame) as (r1 & r2 & H);
    [lia|].
  exists g1, g2, r1, r2. rewrite Hn1 in H. tauto.
Qed.

Lemma search_independent_of_insertion_witness :
  (∀ x s, x ∉ s → ins_end x s ≡ₚ x :: s)
  ∧ (∀ (x : Z) (s : list Z), x ∉ s → cons x s ≡ₚ x :: s)
  ∧ (∀ e : Z * Z, e ∈ [(0, 1); (1, 2); (2, 3); (1, 3)]
        ↔ e ∈ [(0, 1); (1, 2); (1, 3); (2, 3); (0, 1)])
  ∧ (Z.to_nat 4 ≤ 4)%nat
  ∧ (g ← add_edges ins_end (Graph_init 4 false) [(0, 1); (1, 2); (2, 3); (1, 3)];
     '(r, _) ← find_hamiltonian_path 4 g; Ok r) = Ok (Some [0; 1; 2; 3])
  ∧ (g ← add_edges cons (Graph_init 4 false)
           [(0, 1); (1, 2); (1, 3); (2, 3); (0, 1)];
     '(r, _) ← find_hamiltonian_path 4 g; Ok r) = Ok (Some [0; 1; 3; 2])
  ∧ ∃ g1 g2 r1 r2,
    add_edges ins_end (Graph_init 4 false) [(0, 1); (1, 2); (2, 3); (1, 3)]
    = Ok g1
    ∧ add_edges cons (Graph_init 4 false)
        [(0, 1); (1, 2); (1, 3); (2, 3); (0, 1)] = Ok g2
    ∧ find_hamiltonian_path 4 g1 = Ok (r1, g1)
    ∧ find_hamiltonian_path 4 g2 = Ok (r2, g2)
    ∧ (r1 = None ↔ r2 = None)
    ∧ (2 ≤ 4 → r1 ≫= head = r2 ≫= head).
Proof.
  assert (∀ e : Z * Z, e ∈ [(0, 1); (1, 2); (2, 3); (1, 3)]
            ↔ e ∈ [(0, 1); (1, 2); (1, 3); (2, 3); (0, 1)]) as Hes.
  { intros e. rewrite !elem_of_cons, !elem_of_nil. tauto. }
  assert (Z.to_nat 4 ≤ 4)%nat as Hfuel by lia.
  split; [exact ins_end_perm|]. split; [exact cons_perm|].
  split; [exact Hes|]. split; [exact Hfuel|].
  split; [reflexivity|]. split; [reflexivity|].
  exact (search_independent_of_insertion ins_end cons 4 false _ _ 4
           ins_end_perm cons_perm Hes Hfuel).
Defined.

(** X8 — adding an edge never loses a path: if the search finds a path on
    a well-formed graph, then after any [add_edge] call it still finds
    one, Hamiltonian in the new graph. *)
Theorem search_survives_add_edge (ins : Z → list Z → list Z) g u v fuel p :
  (∀ x s, x ∉ s → ins x s ≡ₚ x :: s) →
  wf g → (Z.to_nat (n g) ≤ fuel)%nat →
  find_hamiltonian_path fuel g = Ok (Some p, g) →
  ∃ g' p', add_edge ins g u v = Ok g'
    ∧ find_hamiltonian_path fuel g' = Ok (Some p', g')
    ∧ is_hamiltonian_path g' p' = Ok true.
Proof.
  intros Hins Hwf Hfuel Hrun.
  destruct (find_hamiltonian_path_result _ _ _ _ Hwf Hrun) as [_ [Hp _]].
  destruct (add_edge_wf ins Hins g u v Hwf) as (g' & Hadd & Hwf' & Hn & Hsub).
  destruct (find_hamiltonian_path_correct fuel g' Hwf') as (r & Hrun' & Hv);
    [lia|].
  destruct r as [p'|].
  - exists g', p'. split; [done|]. split; [done|].
    apply is_hamiltonian_path_iff; [done|]. apply Hv.
  - destruct (Hv p). by eapply hamiltonian_mono.
Qed.

Lemma search_survives_add_edge_witness :
  (∀ x s, x ∉ s → ins_end x s ≡ₚ x :: s)
  ∧ wf chain ∧ (Z.to_nat (n chain) ≤ 3)%nat
  ∧ find_hamiltonian_path 3 chain = Ok (Some [2; 0; 1], chain)
  ∧ (g' ← add_edge ins_end chain 1 2; '(r, _) ← find_hamiltonian_path 3 g'; Ok r)
    = Ok (Some [0; 1; 2])
  ∧ ∃ g' p', add_edge ins_end chain 1 2 = Ok g'
    ∧ find_hamiltonian_path 3 g' = Ok (Some p', g')
    ∧ is_hamiltonian_path g' p' = Ok true.
Proof.
  assert (wf chain) as Hwf by (apply wf_b_wf; reflexivity).
  assert (Z.to_nat (n chain) ≤ 3)%nat as Hfuel by (simpl; lia).
  assert (find_hamiltonian_path 3 chain = Ok (Some [2; 0; 1], chain)) as Hrun
    by reflexivity.
  split; [exact ins_end_perm|]. split; [exact Hwf|]. split; [exact Hfuel|].
  split; [exact Hrun|]. split; [reflexivity|].
  exact (search_survives_add_edge ins_end chain 1 2 3 [2; 0; 1]
           ins_end_perm Hwf Hfuel Hrun).
Defined.

(** X9 — orientation of the result on undirected graphs: on an undirected
    graph that satisfies the invariant and has at least two vertices, a
    path returned by the search starts at a smaller vertex than it ends
    at; of a path and its reversal only this one can be returned. *)
Theorem search_undirected_orientation fuel g p g' :
  graph_inv g → directed g = false → 2 ≤ n g →
  find_hamiltonian_path fuel g = Ok (Some p, g') →
  ∃ s t, head p = Some s ∧ last p = Some t ∧ s < t.
Proof.
  intros [Hwf _ _ Hsym] Hd Hn Hrun. specialize (Hsym Hd).
  destruct (find_hamiltonian_path_result _ _ _ _ Hwf Hrun) as [_ [Hp Hmin]].
  destruct (Hmin Hn) as (s & Hs & Hleast).
  pose proof (hamiltonian_NoDup g p Hp) as Hnd.
  pose proof Hp as (Hlen & _ & _).
  destruct (last p) as [t|] eqn:Ht.
  2: { apply last_None in Ht. subst p. done. }
  exists s, t. split; [done|]. split; [done|].
  assert (s ≤ t) as Hle.
  { apply (Hleast t (reverse p)); [by apply hamiltonian_reverse|].
    by rewrite head_reverse. }
  assert (s ≠ t); [|lia]. intros ->.
  rewrite head_lookup in Hs. rewrite last_lookup in Ht.
  pose proof (NoDup_lookup _ _ _ _ Hnd Hs Ht). lia.
Qed.

Lemma search_undirected_orientation_witness :
  graph_inv path3 ∧ directed path3 = false ∧ 2 ≤ n path3
  ∧ find_hamiltonian_path 3 path3 = Ok (Some [0; 1; 2], path3)
  ∧ ∃ s t, head [0; 1; 2] = Some s ∧ last [0; 1; 2] = Some t ∧ s < t.
Proof.
  assert (graph_inv path3) as Hinv.
  { apply (built_graph_inv ins_end ins_end_perm 3 false [(0, 1); (1, 2)]).
    reflexivity. }
  assert (directed path3 = false) as Hd by reflexivity.
  assert (2 ≤ n path3) as Hn by (simpl; lia).
  assert (find_hamiltonian_path 3 path3 = Ok (Some [0; 1; 2], path3)) as Hrun
    by reflexivity.
  split; [exact Hinv|]. split; [exact Hd|]. split; [exact Hn|].
  split; [exact Hrun|].
  exact (search_undirected_orientation 3 path3 [0; 1; 2] path3 Hinv Hd Hn Hrun).
Defined.

(** ** The edges handed to the plot *)

Lemma nx_edges_of_filter g u nbs :
  nx_edges_of g u nbs
  = (λ v, (u, v)) <$> filter (λ v, directed g = true ∨ u < v) nbs.
Proof.
  induction nbs as [|v nbs IH]; [done|].
  rewrite filter_cons. cbn [nx_edges_of]. rewrite IH.
  destruct (decide (directed g = true ∨ u < v)) as [Hc|Hc];
    case_bool_decide as Hlt; destruct (directed g) eqn:Hd;
    simpl; try done; exfalso; intuition congruence.
Qed.

Lemma elem_of_nx_edges_of g u nbs a b :
  (a, b) ∈ nx_edges_of g u nbs
  ↔ a = u ∧ b ∈ nbs ∧ (directed g = true ∨ a < b).
Proof.
  rewrite nx_edges_of_filter, list_elem_of_fmap. split.
  - intros (v & [= -> ->] & [Hc Hv]%list_elem_of_filter). done.
  - intros (-> & Hb & Hc). exists b. split; [done|].
    by apply list_elem_of_filter.
Qed.

Lemma nx_edges_of_NoDup g u nbs : NoDup nbs → NoDup (nx_edges_of g u nbs).
Proof.
  intros Hnd. rewrite nx_edges_of_filter. apply NoDup_fmap_2.
  - by intros x y [=].
  - by apply NoDup_filter.
Qed.

Lemma nx_edges_spec g us :
  graph_inv g → NoDup us →
  ∃ es, nx_edges g us = Ok es ∧ NoDup es
    ∧ ∀ a b, (a, b) ∈ es
        ↔ a ∈ us ∧ adjacent g a b ∧ (directed g = true ∨ a < b).
Proof.
  intros Hinv. induction us as [|u us IH]; intros Hnd.
  { exists []. split; [done|]. split; [constructor|].
    intros a b. split; [by intros ?%elem_of_nil|].
    by intros [?%elem_of_nil _]. }
  apply NoDup_cons in Hnd as [Hu Hnd].
  destruct (IH Hnd) as (later & Hrun & Hnd' & Hmem).
  destruct (decide (0 ≤ u < n g)) as [Hur|Hur].
  - destruct (neighbors_adjacent g u (inv_wf _ Hinv) Hur) as (l & Hl & Hadj).
    destruct (neighbors_inv g u l Hinv Hl) as (Hndl & _ & _).
    exists (nx_edges_of g u l ++ later). simpl. rewrite Hl. simpl.
    rewrite Hrun. simpl. split; [done|]. split.
    + apply NoDup_app. split; [by apply nx_edges_of_NoDup|]. split; [|done].
      intros [a b] [-> _]%elem_of_nx_edges_of [Ha _]%Hmem. done.
    + intros a b. rewrite elem_of_app, elem_of_nx_edges_of, Hmem, elem_of_cons.
      split.
      * intros [(-> & Hb & Hc)|(Ha & Hab & Hc)]; [|tauto].
        split; [by left|]. split; [by apply Hadj|done].
      * intros ([->|Ha] & Hab & Hc); [left|right]; try done.
        split; [done|]. split; [by apply Hadj|done].
  - exists later. simpl. rewrite neighbors_out_of_range by done. simpl.
    rewrite Hrun. simpl. split; [done|]. split; [done|].
    intros a b. rewrite Hmem, elem_of_cons. split; [tauto|].
    intros ([->|Ha] & Hab & Hc); [|done]. exfalso. apply Hur.
    destruct Hab as [H0 (s & Hs & _)]. apply lookup_lt_Some in Hs.
    pose proof (wf_len _ (inv_wf _ Hinv)). lia.
Qed.

Lemma adjacent_in_range g a b : wf g → adjacent g a b → 0 ≤ a < n g.
Proof.
  intros [Hlen _] [H0 (s & Hs & _)]. apply lookup_lt_Some in Hs. lia.
Qed.

Lemma drawn_edges_spec g :
  graph_inv g →
  ∃ es, drawn_edges g = Ok es
    ∧ ∀ a b, (a, b) ∈ es ↔ adjacent g a b ∧ (directed g = true ∨ a < b).
Proof.
  intros Hinv.
  destruct (nx_edges_spec g (py_range (n g)) Hinv (py_range_NoDup _))
    as (es & Hrun & Hnd & Hmem).
  exists es. split; [done|].
  intros a b. rewrite Hmem, elem_of_py_range. split; [tauto|].
  intros [Hab Hc]. split; [|done]. by eapply adjacent_in_range, Hab; apply Hinv.
Qed.

(** X10 — every edge is handed to the plot once: on a graph that
    satisfies the invariant, the loops of [visualize_graph] run without
    error and make no [add_edge] call twice; the calls are exactly the
    pairs [(a, b)] with [b] in [adj[a]] and, in an undirected graph,
    [a < b], so that an undirected edge is never passed in both
    directions and every adjacency is covered by one call. *)
Theorem drawn_edges_once g :
  graph_inv g →
  ∃ es, drawn_edges g = Ok es ∧ NoDup es
    ∧ (∀ a b, (a, b) ∈ es ↔ adjacent g a b ∧ (directed g = true ∨ a < b))
    ∧ (directed g = false →
        (∀ a b, (a, b) ∈ es → (b, a) ∉ es)
        ∧ ∀ a b, adjacent g a b ↔ (a, b) ∈ es ∨ (b, a) ∈ es).
Proof.
  intros Hinv.
  destruct (nx_edges_spec g (py_range (n g)) Hinv (py_range_NoDup _))
    as (es & Hrun & Hnd & Hmem).
  assert (∀ a b, (a, b) ∈ es
            ↔ adjacent g a b ∧ (directed g = true ∨ a < b)) as Hmem'.
  { intros a b. rewrite Hmem, elem_of_py_range. split; [tauto|].
    intros [Hab Hc]. split; [|done]. by eapply adjacent_in_range, Hab; apply Hinv. }
  exists es. split; [done|]. split; [done|]. split; [done|].
  intros Hd. split.
  - intros a b [_ [?|Hab]]%Hmem' [_ [?|Hba]]%Hmem'; try congruence. lia.
  - intros a b. rewrite !Hmem'. split.
    + intros Hab. destruct (Z.lt_trichotomy a b) as [?|[->|?]].
      * left. auto.
      * by destruct (inv_noloop _ Hinv b).
      * right. split; [by apply (inv_sym _ Hinv)|auto].
    + intros [[? _]|[? _]]; [done|by apply (inv_sym _ Hinv)].
Qed.

Lemma drawn_edges_once_witness :
  graph_inv star
  ∧ drawn_edges star = Ok [(0, 3); (0, 1); (0, 2); (1, 2)]
  ∧ ∃ es, drawn_edges star = Ok es ∧ NoDup es
    ∧ (∀ a b, (a, b) ∈ es
         ↔ adjacent star a b ∧ (directed star = true ∨ a < b))
    ∧ (directed star = false →
        (∀ a b, (a, b) ∈ es → (b, a) ∉ es)
        ∧ ∀ a b, adjacent star a b ↔ (a, b) ∈ es ∨ (b, a) ∈ es).
Proof.
  assert (graph_inv star) as Hinv.
  { apply (built_graph_inv ins_end ins_end_perm 4 false
             [(0, 3); (0, 1); (0, 2); (1, 2)]). reflexivity. }
  split; [exact Hinv|]. split; [reflexivity|]. exact (drawn_edges_once star Hinv).
Defined.

(** ** The highlighted edges *)

Lemma consecutive_spec (p : list Z) idxs :
  (∀ i, i ∈ idxs → 0 ≤ i ∧ i + 1 < Z.of_nat (length p)) →
  ∃ hs, consecutive p idxs = Ok hs ∧ length hs = length idxs
    ∧ ∀ u v, (u, v) ∈ hs →
        ∃ i, p !! i = Some u ∧ p !! S i = Some v.
Proof.
  induction idxs as [|i idxs IH]; intros Hidx.
  { exists []. split; [done|]. split; [done|]. by intros u v ?%elem_of_nil. }
  destruct (Hidx i) as [Hi0 Hi1]; [left|].
  destruct IH as (hs & Hrun & Hlen & Hmem).
  { intros j Hj. apply Hidx. by right. }
  destruct (lookup_lt_is_Some_2 p (Z.to_nat i)) as [u Hu]; [lia|].
  destruct (lookup_lt_is_Some_2 p (Z.to_nat (i + 1))) as [v Hv]; [lia|].
  exists ((u, v) :: hs). simpl.
  rewrite (py_get_lookup p i u) by (done || lia). simpl.
  rewrite (py_get_lookup p (i + 1) v) by (done || lia). simpl.
  rewrite Hrun. simpl. split; [done|]. split; [by rewrite Hlen|].
  intros u' v' [[= -> ->]|Hin]%elem_of_cons; [|by apply Hmem].
  exists (Z.to_nat i). split; [done|].
  by replace (S (Z.to_nat i)) with (Z.to_nat (i + 1)) by lia.
Qed.

(** X11 — the highlighted edges are edges of the plot: for a sequence the
    validator accepts on a graph that satisfies the invariant,
    [visualize_graph] computes [len(path) - 1] highlighted pairs without
    error, and each of them was handed to the plot as an edge, in this
    direction or, in an undirected graph, possibly in the other. *)
Theorem highlighted_edges_drawn g p :
  graph_inv g → is_hamiltonian_path g p = Ok true →
  ∃ es hs, drawn_edges g = Ok es ∧ path_edges (Some p) = Ok hs
    ∧ length hs = (length p - 1)%nat
    ∧ ∀ a b, (a, b) ∈ hs →
        (a, b) ∈ es ∨ (directed g = false ∧ (b, a) ∈ es).
Proof.
  intros Hinv Hp. apply is_hamiltonian_path_iff in Hp; [|apply Hinv].
  destruct Hp as (_ & _ & Hwalk).
  destruct (drawn_edges_spec g Hinv) as (es & Hrun & Hmem).
  assert (∃ hs, path_edges (Some p) = Ok hs
            ∧ length hs = (length p - 1)%nat
            ∧ ∀ u v, (u, v) ∈ hs →
                ∃ i, p !! i = Some u ∧ p !! S i = Some v)
    as (hs & Hhs & Hlen & Hcons).
  { unfold path_edges. case_bool_decide as Hnil; simpl.
    { subst p. exists []. split; [done|]. split; [done|].
      by intros u v ?%elem_of_nil. }
    case_bool_decide as Hlen.
    - destruct (consecutive_spec p (py_range (Z.of_nat (length p) - 1)))
        as (hs & Hrun' & Hlen' & Hmem').
      { intros i Hi%elem_of_py_range. lia. }
      exists hs. split; [done|]. split; [|done].
      rewrite Hlen', py_range_length. lia.
    - exists []. split; [done|]. split; [simpl; lia|].
      by intros u v ?%elem_of_nil. }
  exists es, hs. split; [done|]. split; [done|]. split; [done|].
  intros a b (i & Ha & Hb)%Hcons.
  pose proof (Hwalk i a b Ha Hb) as Hab.
  destruct (directed g) eqn:Hd.
  - left. apply Hmem. auto.
  - destruct (Z.lt_trichotomy a b) as [?|[->|?]].
    + left. apply Hmem. auto.
    + by destruct (inv_noloop _ Hinv b).
    + right. split; [done|]. apply Hmem.
      split; [by apply (inv_sym _ Hinv)|auto].
Qed.

Lemma highlighted_edges_drawn_witness :
  graph_inv star ∧ is_hamiltonian_path star [3; 0; 2; 1] = Ok true
  ∧ path_edges (Some [3; 0; 2; 1]) = Ok [(3, 0); (0, 2); (2, 1)]
  ∧ ∃ es hs, drawn_edges star = Ok es ∧ path_edges (Some [3; 0; 2; 1]) = Ok hs
    ∧ length hs = (length [3; 0; 2; 1] - 1)%nat
    ∧ ∀ a b, (a, b) ∈ hs →
        (a, b) ∈ es ∨ (directed star = false ∧ (b, a) ∈ es).
Proof.
  assert (graph_inv star) as Hinv.
  { apply (built_graph_inv ins_end ins_end_perm 4 false
             [(0, 3); (0, 1); (0, 2); (1, 2)]). reflexivity. }
  assert (is_hamiltonian_path star [3; 0; 2; 1] = Ok true) as Hp by reflexivity.
  split; [exact Hinv|]. split; [exact Hp|]. split; [reflexivity|].
  exact (highlighted_edges_drawn star [3; 0; 2; 1] Hinv Hp).
Defined.

(** ** Counting edges *)

Lemma nbrs_Ok g u : wf g → neighbors g u = Ok (nbrs g u).
Proof.
  intros Hwf. unfold nbrs. destruct (decide (0 ≤ u < n g)) as [Hu|Hu].
  - destruct (neighbors_adjacent g u Hwf Hu) as (l & -> & _). done.
  - by rewrite neighbors_out_of_range.
Qed.

Lemma nbrs_length g u : wf g → 0 ≤ u < n g → length (nbrs g u) = deg g u.
Proof.
  intros Hwf Hu.
  destruct (neighbors_spec g u Hwf Hu) as (s & l & Hs & Hl & Hp & _).
  unfold nbrs, deg. by rewrite Hl, Hs, Hp.
Qed.

Lemma nx_edges_all_pairs g us :
  wf g →
  nx_edges g us
  = Ok (filter (λ e, directed g = true ∨ e.1 < e.2) (all_pairs g us)).
Proof.
  intros Hwf. induction us as [|u us IH]; simpl; [done|].
  rewrite (nbrs_Ok g u Hwf). simpl. rewrite IH. simpl.
  rewrite filter_app, nx_edges_of_filter. do 2 f_equal.
  induction (nbrs g u) as [|v l IHl]; [done|].
  rewrite fmap_cons, !filter_cons. cbn [fst snd].
  destruct (decide (directed g = true ∨ u < v));
    [rewrite fmap_cons; f_equal|]; exact IHl.
Qed.

Lemma degree_sum_all_pairs g us :
  wf g → (∀ u, u ∈ us → 0 ≤ u < n g) →
  degree_sum g us = Ok (Z.of_nat (length (all_pairs g us))).
Proof.
  intros Hwf. induction us as [|u us IH]; intros Hus; simpl; [done|].
  rewrite degree_Ok by (done || apply Hus; left). simpl.
  rewrite IH by (intros w Hw; apply Hus; by right). simpl.
  rewrite length_app, length_fmap, nbrs_length by (done || apply Hus; left).
  f_equal. lia.
Qed.

Lemma all_pairs_spec g us :
  graph_inv g → NoDup us →
  NoDup (all_pairs g us)
  ∧ ∀ a b, (a, b) ∈ all_pairs g us ↔ a ∈ us ∧ 0 ≤ a < n g ∧ adjacent g a b.
Proof.
  intros Hinv. induction us as [|u us IH]; intros Hnd; simpl.
  { split; [constructor|]. intros a b. split; [by intros ?%elem_of_nil|].
    by intros [?%elem_of_nil _]. }
  apply NoDup_cons in Hnd as [Hu Hnd]. destruct (IH Hnd) as [Hnd' Hmem].
  destruct (neighbors_inv g u (nbrs g u) Hinv (nbrs_Ok g u (inv_wf _ Hinv)))
    as (Hndl & _ & Hl).
  assert (∀ a b, (a, b) ∈ (λ v, (u, v)) <$> nbrs g u
            ↔ a = u ∧ 0 ≤ a < n g ∧ adjacent g a b) as Hhead.
  { intros a b. rewrite list_elem_of_fmap. split.
    - intros (v & [= -> ->] & Hv%Hl). tauto.
    - intros (-> & Hr & Hab). exists b. split; [done|]. by apply Hl. }
  split.
  - apply NoDup_app. split; [|split; [|done]].
    + apply NoDup_fmap_2; [by intros x y [=]|done].
    + intros [a b] [-> _]%Hhead [Ha _]%Hmem. done.
  - intros a b. rewrite elem_of_app, Hhead, Hmem, elem_of_cons. tauto.
Qed.

Lemma undirected_pairs_double g us :
  graph_inv g → directed g = false → NoDup us →
  (∀ a b, adjacent g a b → a ∈ us) →
  length (all_pairs g us)
  = (2 * length (filter (λ e : Z * Z, directed g = true ∨ (e.1 < e.2)%Z)
                        (all_pairs g us)))%nat.
Proof.
  intros Hinv Hd Hnd Hcover.
  destruct (all_pairs_spec g us Hinv Hnd) as [HndF Hmem].
  set (F := all_pairs g us) in *.
  set (P := λ e : Z * Z, directed g = true ∨ e.1 < e.2).
  rewrite <- (filter_app_complement P F) at 1. rewrite length_app.
  assert (filter (λ e, ¬ P e) F ≡ₚ prod_swap <$> filter P F) as ->.
  { apply NoDup_Permutation.
    - by apply NoDup_filter.
    - apply NoDup_fmap_2; [apply _|by apply NoDup_filter].
    - intros [a b]. rewrite list_elem_of_filter, list_elem_of_fmap. unfold P.
      rewrite Hmem. simpl. split.
      + intros (Hc & Ha & Hr & Hab). exists (b, a). split; [done|].
        apply list_elem_of_filter. simpl. split.
        * right. destruct (decide (b < a)) as [|Hnlt]; [done|]. exfalso.
          destruct (decide (a = b)) as [Heq|Hne].
          { subst. by eapply (inv_noloop _ Hinv). }
          apply Hc. right. lia.
        * apply Hmem. pose proof (inv_sym _ Hinv Hd a b Hab) as Hba.
          split; [by eapply Hcover|]. split; [|done].
          by eapply adjacent_in_range, Hba; apply Hinv.
      + intros ([b' a'] & Heq & [Hc Hin]%list_elem_of_filter).
        simpl in Heq. injection Heq as -> ->. rename a' into a, b' into b.
        simpl in Hc. apply Hmem in Hin as (Hb & Hr & Hba).
        pose proof (inv_sym _ Hinv Hd b a Hba) as Hab. split.
        * intros [?|?]; [congruence|]. destruct Hc; [congruence|lia].
        * split; [by eapply Hcover|]. split; [|done].
          by eapply adjacent_in_range, Hab; apply Hinv. }
  rewrite length_fmap. lia.
Qed.

(** X12 — the printed edge count is the number of plotted edges: on a
    graph that satisfies the invariant, the count [exemplo_visualizacao]
    prints (the sum of the adjacency-set sizes, halved with [//] when the
    graph is undirected) is computed without error and equals the number
    of [add_edge] calls [visualize_graph] makes on the plot; in the
    undirected case the sum is even, so the halving loses nothing. *)
Theorem edge_count_is_drawn g :
  graph_inv g →
  ∃ es total, drawn_edges g = Ok es
    ∧ degree_sum g (py_range (n g)) = Ok total
    ∧ edge_count g = Ok (Z.of_nat (length es))
    ∧ (directed g = false → total = 2 * Z.of_nat (length es)).
Proof.
  intros Hinv. pose proof (inv_wf _ Hinv) as Hwf.
  unfold drawn_edges, edge_count.
  rewrite (nx_edges_all_pairs g _ Hwf).
  rewrite (degree_sum_all_pairs g _ Hwf)
    by (intros u; by rewrite elem_of_py_range).
  set (F := all_pairs g (py_range (n g))).
  set (P := λ e : Z * Z, directed g = true ∨ e.1 < e.2).
  assert (directed g = true → length (filter P F) = length F) as Hdir.
  { intros Hd. f_equal. induction F as [|e l IH]; [done|].
    rewrite filter_cons. rewrite decide_True by (by left). by rewrite IH. }
  assert (directed g = false → length F = (2 * length (filter P F))%nat)
    as Hundir.
  { intros Hd. apply undirected_pairs_double; try done.
    - apply py_range_NoDup.
    - intros a b Hab. apply elem_of_py_range.
      by eapply adjacent_in_range, Hab. }
  exists (filter P F), (Z.of_nat (length F)).
  split; [done|]. split; [done|].
  generalize dependent (length (filter P F)). intros k Hdir Hundir.
  destruct (directed g); simpl.
  - split; [|done]. rewrite Hdir by done. done.
  - rewrite Hundir by done. split; [|intros _; lia].
    f_equal. rewrite Nat2Z.inj_mul.
    by rewrite Z.mul_comm, Z.div_mul.
Qed.

Lemma edge_count_is_drawn_witness :
  graph_inv star
  ∧ edge_count star = Ok 4
  ∧ ∃ es total, drawn_edges star = Ok es
    ∧ degree_sum star (py_range (n star)) = Ok total
    ∧ edge_count star = Ok (Z.of_nat (length es))
    ∧ (directed star = false → total = 2 * Z.of_nat (length es)).
Proof.
  assert (graph_inv star) as Hinv.
  { apply (built_graph_inv ins_end ins_end_perm 4 false
             [(0, 3); (0, 1); (0, 2); (1, 2)]). reflexivity. }
  split; [exact Hinv|]. split; [reflexivity|].
  exact (edge_count_is_drawn star Hinv).
Defined.

(** ** Reading a graph from a file *)

Lemma add_edge_total ins g u v :
  length (adj g) = Z.to_nat (n g) →
  ∃ g', add_edge ins g u v = Ok g'
    ∧ length (adj g') = Z.to_nat (n g')
    ∧ n g' = n g ∧ directed g' = directed g.
Proof.
  intros Hlen.
  destruct (decide (u = v ∨ ¬ (0 ≤ u < n g) ∨ ¬ (0 ≤ v < n g))) as [Hrej|Hacc].
  - exists g. by rewrite add_edge_rejected.
  - assert (u ≠ v ∧ 0 ≤ u < n g ∧ 0 ≤ v < n g) as (Hne & Hu & Hv) by lia.
    eexists. rewrite add_edge_accepted by done. split; [done|]. simpl.
    split; [|done]. unfold added. destruct (directed g); by rewrite ?length_alter.
Qed.

Lemma lift_bind {A B} (r : res A) (f : A → res B) :
  lift (r ≫= f) = lift r ≫= (λ a, lift (f a)).
Proof. by destruct r. Qed.

Section ReaderProofs.
Variable ins : Z → list Z → list Z.
Variable py_strip : string → string.
Variable py_split : string → list string.
Variable py_int : string → option Z.

Local Abbreviation read := (_read_graph_from_file ins py_strip py_split py_int).
Local Abbreviation load := (load_lines ins py_strip py_split py_int).
Local Abbreviation header l := (unpack_ints py_int (py_split (py_strip l))).
Local Abbreviation ok_line := (readable py_strip py_split py_int).
Local Abbreviation edge_in := (edge_of_line py_strip py_split py_int).

Lemma read_edge_lines_seq lines ls : ∀ g a,
  0 ≤ a →
  (∀ j l, ls !! j = Some l → lines !! (Z.to_nat a + j)%nat = Some l) →
  read_edge_lines ins py_strip py_split py_int lines g
    (seqZ a (Z.of_nat (length ls)))
  = load g (a + 1) ls.
Proof.
  induction ls as [|l ls IH]; intros g a Ha Hls.
  { by rewrite seqZ_nil. }
  rewrite seqZ_cons by (simpl; lia).
  replace (Z.pred (Z.of_nat (length (l :: ls)))) with (Z.of_nat (length ls))
    by (simpl; lia).
  assert (∀ g', read_edge_lines ins py_strip py_split py_int lines g'
            (seqZ (Z.succ a) (Z.of_nat (length ls)))
          = load g' (a + 1 + 1) ls) as Hrest.
  { intros g'. replace (a + 1 + 1) with (Z.succ a + 1) by lia.
    apply IH; [lia|]. intros j l' Hj.
    replace (Z.to_nat (Z.succ a) + j)%nat with (Z.to_nat a + S j)%nat by lia.
    by apply Hls. }
  simpl. rewrite (py_get_lookup lines a l); [|done|].
  2: { specialize (Hls 0%nat l eq_refl). by rewrite Nat.add_0_r in Hls. }
  simpl. case_bool_decide; [apply Hrest|].
  destruct (header l) as [[u v]|]; [|done].
  destruct (add_edge ins g u v) as [g'| |]; simpl; try done.
Qed.
Lemma read_edge_lines_len lines ls g a k :
  0 ≤ a → Z.to_nat k = length ls →
  (∀ j l, ls !! j = Some l → lines !! (Z.to_nat a + j)%nat = Some l) →
  read_edge_lines ins py_strip py_split py_int lines g (seqZ a k)
  = load g (a + 1) ls.
Proof.
  intros Ha Hk Hls. rewrite <- (read_edge_lines_seq lines ls g a Ha Hls).
  f_equal. unfold seqZ. by rewrite Nat2Z.id, Hk.
Qed.

Lemma read_unfold fs filepath d first body n0 m :
  fs filepath = Some (first :: body) → header first = Some (n0, m) →
  read fs filepath d = load (Graph_init n0 d) 2 (take (Z.to_nat m) body).
Proof.
  intros Hfs Hhdr. unfold _read_graph_from_file. rewrite Hfs.
  rewrite bool_decide_eq_false_2 by (simpl; lia).
  rewrite (py_get_lookup _ 0 first) by done. simpl. rewrite Hhdr.
  apply (read_edge_lines_len (first :: body)); [lia| |].
  - rewrite length_take. simpl. lia.
  - intros j l [Hl _]%lookup_take_Some. done.
Qed.

Lemma load_lines_outcome ls : ∀ g lineno,
  length (adj g) = Z.to_nat (n g) →
  (∃ g', load g lineno ls = Returns g'
     ∧ length (adj g') = Z.to_nat (n g')
     ∧ n g' = n g ∧ directed g' = directed g)
  ∨ (∃ msg, load g lineno ls = Throws (ValueError msg)).
Proof.
  induction ls as [|l ls IH]; intros g lineno Hlen; simpl.
  { left. by exists g. }
  case_bool_decide; [by apply IH|].
  destruct (header l) as [[u v]|]; [|right; eauto].
  destruct (add_edge_total ins g u v Hlen) as (g1 & -> & Hlen1 & Hn & Hd).
  simpl. destruct (IH g1 (lineno + 1) Hlen1) as [(g' & -> & ? & ? & ?)|?];
    [left|by right].
  exists g'. split; [done|]. split; [done|]. split; congruence.
Qed.

Lemma load_lines_inv ls : ∀ g lineno g',
  (∀ x s, x ∉ s → ins x s ≡ₚ x :: s) →
  graph_inv g → load g lineno ls = Returns g' → graph_inv g'.
Proof.
  induction ls as [|l ls IH]; intros g lineno g' Hins Hinv; simpl.
  { by intros [= <-]. }
  case_bool_decide; [by apply IH|].
  destruct (header l) as [[u v]|]; [|done].
  destruct (add_edge_inv ins Hins g u v Hinv) as (g1 & -> & Hinv1 & _).
  simpl. by apply IH.
Qed.

Lemma load_lines_readable ls : ∀ g lineno,
  Forall ok_line ls →
  load g lineno ls = lift (add_edges ins g (omap edge_in ls)).
Proof.
  induction ls as [|l ls IH]; intros g lineno Hls; simpl; [done|].
  apply Forall_cons in Hls as [Hl Hls]. unfold edge_of_line at 1.
  case_bool_decide; [by apply IH|].
  destruct Hl as [?|[[u v] Hl]]; [done|]. rewrite Hl. simpl.
  rewrite lift_bind. destruct (add_edge ins g u v); simpl; try done.
  by apply IH.
Qed.

Lemma load_lines_bad pre l post : ∀ g lineno,
  length (adj g) = Z.to_nat (n g) →
  Forall ok_line pre → ¬ ok_line l →
  load g lineno (pre ++ l :: post)
  = Throws (ValueError ("Formato inválido na linha "
                        +:+ pretty (lineno + Z.of_nat (length pre))
                        +:+ ". Use: u v")).
Proof.
  induction pre as [|l0 pre IH]; intros g lineno Hlen Hpre Hbad; simpl.
  - rewrite bool_decide_eq_false_2 by (intros ?; apply Hbad; by left).
    destruct (header l) as [[u v]|] eqn:Hhdr.
    { destruct Hbad. right. by rewrite Hhdr. }
    by rewrite Z.add_0_r.
  - apply Forall_cons in Hpre as [Hl0 Hpre].
    replace (lineno + Z.of_nat (S (length pre)))
      with (lineno + 1 + Z.of_nat (length pre)) by lia.
    case_bool_decide; [by apply IH|].
    destruct Hl0 as [?|[[u v] Hl0]]; [done|]. rewrite Hl0.
    destruct (add_edge_total ins g u v Hlen) as (g1 & -> & Hlen1 & _).
    simpl. by apply IH.
Qed.

(** X13 — [_read_graph_from_file] raises only what it documents: if the
    file does not exist it raises FileNotFoundError with the message
    naming the path; otherwise it returns a graph or raises ValueError.
    No exception of the graph code escapes. *)
Theorem read_graph_outcomes fs filepath d :
  (fs filepath = None
   ∧ _read_graph_from_file ins py_strip py_split py_int fs filepath d
     = Throws (FileNotFoundError
                 ("Arquivo '" +:+ filepath +:+ "' não encontrado")))
  ∨ (is_Some (fs filepath)
     ∧ ((∃ g, _read_graph_from_file ins py_strip py_split py_int
                fs filepath d = Returns g)
        ∨ ∃ msg, _read_graph_from_file ins py_strip py_split py_int
                   fs filepath d = Throws (ValueError msg))).
Proof.
  destruct (fs filepath) as [lines|] eqn:Hfs.
  2: { left. split; [done|]. unfold _read_graph_from_file. by rewrite Hfs. }
  right. split; [done|]. destruct lines as [|first body].
  { right. eexists. unfold _read_graph_from_file. rewrite Hfs. done. }
  destruct (header first) as [[n0 m]|] eqn:Hhdr.
  - rewrite (read_unfold fs filepath d first body n0 m) by done.
    destruct (load_lines_outcome (take (Z.to_nat m) body)
                (Graph_init n0 d) 2) as [(g & -> & _)|[msg ->]]; eauto.
    apply length_replicate.
  - right. eexists. unfold _read_graph_from_file. rewrite Hfs.
    rewrite bool_decide_eq_false_2 by (simpl; lia).
    rewrite (py_get_lookup _ 0 first) by done. simpl. by rewrite Hhdr.
Qed.

(** X14 — a loaded graph is a valid graph: whatever the iteration order
    of the sets, a graph returned by [_read_graph_from_file] satisfies the
    data invariant, has the directedness asked for, and has the vertex
    count given first on the first line of the file. *)
Theorem read_graph_valid fs filepath d g :
  (∀ x s, x ∉ s → ins x s ≡ₚ x :: s) →
  _read_graph_from_file ins py_strip py_split py_int fs filepath d
  = Returns g →
  graph_inv g ∧ directed g = d
  ∧ ∃ first body m, fs filepath = Some (first :: body)
      ∧ unpack_ints py_int (py_split (py_strip first)) = Some (n g, m).
Proof.
  intros Hins Hrun.
  destruct (fs filepath) as [[|first body]|] eqn:Hfs.
  - unfold _read_graph_from_file in Hrun. by rewrite Hfs in Hrun.
  - destruct (header first) as [[n0 m]|] eqn:Hhdr.
    + rewrite (read_unfold fs filepath d first body n0 m Hfs Hhdr) in Hrun.
      destruct (load_lines_outcome (take (Z.to_nat m) body) (Graph_init n0 d) 2)
        as [(g' & Hrun' & _ & Hn & Hd)|[msg Hrun']];
        [apply length_replicate|..]; rewrite Hrun' in Hrun; [|done].
      injection Hrun as ->. split.
      { eapply load_lines_inv; [done|apply (Graph_init_inv n0 d)|done]. }
      split; [done|]. exists first, body, m. split; [done|].
      by rewrite Hn.
    + unfold _read_graph_from_file in Hrun. rewrite Hfs in Hrun.
      rewrite bool_decide_eq_false_2 in Hrun by (simpl; lia).
      rewrite (py_get_lookup _ 0 first) in Hrun by done. simpl in Hrun.
      by rewrite Hhdr in Hrun.
  - unfold _read_graph_from_file in Hrun. by rewrite Hfs in Hrun.
Qed.

(** X15 — a readable file is loaded edge by edge: when the first line
    holds [n m] and each of the first [m] lines after it is blank or holds
    two integers, [_read_graph_from_file] gives what the [add_edge] calls
    for the non-blank ones among these lines give, in order, on a fresh
    graph with [n] vertices. Blank lines are skipped but counted; a file
    with fewer than [m] such lines is accepted; a negative [m] reads
    nothing. *)
Theorem read_graph_readable fs filepath d first body n0 m :
  fs filepath = Some (first :: body) →
  unpack_ints py_int (py_split (py_strip first)) = Some (n0, m) →
  Forall (readable py_strip py_split py_int) (take (Z.to_nat m) body) →
  _read_graph_from_file ins py_strip py_split py_int fs filepath d
  = lift (add_edges ins (Graph_init n0 d)
            (omap (edge_of_line py_strip py_split py_int)
               (take (Z.to_nat m) body))).
Proof.
  intros Hfs Hhdr Hok. rewrite (read_unfold fs filepath d first body n0 m) by done.
  by apply load_lines_readable.
Qed.

(** X16 — the first unreadable line is reported by its number: when the
    first line holds [n m] and, among the first [m] lines after it, the
    line with index [k] (from 0) is the first that is neither blank nor
    two integers, [_read_graph_from_file] raises ValueError naming line
    [k + 2], counting the lines of the file from 1. *)
Theorem read_graph_bad_line fs filepath d first body n0 m k l :
  fs filepath = Some (first :: body) →
  unpack_ints py_int (py_split (py_strip first)) = Some (n0, m) →
  body !! k = Some l → (k < Z.to_nat m)%nat →
  Forall (readable py_strip py_split py_int) (take k body) →
  ¬ readable py_strip py_split py_int l →
  _read_graph_from_file ins py_strip py_split py_int fs filepath d
  = Throws (ValueError ("Formato inválido na linha "
                        +:+ pretty (Z.of_nat k + 2) +:+ ". Use: u v")).
Proof.
  intros Hfs Hhdr Hl Hk Hpre Hbad.
  rewrite (read_unfold fs filepath d first body n0 m) by done.
  rewrite <- (take_drop_middle body k l Hl).
  pose proof (lookup_lt_Some _ _ _ Hl) as Hlt.
  rewrite take_app, length_take_le by lia.
  rewrite (take_ge (take k body)) by (rewrite length_take; lia).
  replace (Z.to_nat m - k)%nat with (S (Z.to_nat m - S k)) by lia. simpl.
  rewrite load_lines_bad; [|apply length_replicate|done..].
  rewrite length_take_le by lia.
  by replace (2 + Z.of_nat k) with (Z.of_nat k + 2) by lia.
Qed.

(** X17 — what follows the announced edge lines is never looked at: two
    files with the same first line [n m] and the same first [m] lines
    after it get the same outcome, whatever else they hold. *)
Theorem read_graph_ignores_rest fs fs' filepath d first body body' n0 m :
  fs filepath = Some (first :: body) → fs' filepath = Some (first :: body') →
  unpack_ints py_int (py_split (py_strip first)) = Some (n0, m) →
  take (Z.to_nat m) body = take (Z.to_nat m) body' →
  _read_graph_from_file ins py_strip py_split py_int fs filepath d
  = _read_graph_from_file ins py_strip py_split py_int fs' filepath d.
Proof.
  intros Hfs Hfs' Hhdr Htake.
  rewrite (read_unfold fs filepath d first body n0 m) by done.
  rewrite (read_unfold fs' filepath d first body' n0 m) by done.
  by rewrite Htake.
Qed.
End ReaderProofs.

Lemma read_graph_valid_witness :
  (∀ x s, x ∉ s → ins_end x s ≡ₚ x :: s)
  ∧ _read_graph_from_file ins_end strip_spaces String.words int_decimal files
      "g.txt" false
    = Returns (mkGraph 3 false [[1]; [0]; []])
  ∧ graph_inv (mkGraph 3 false [[1]; [0]; []])
  ∧ directed (mkGraph 3 false [[1]; [0]; []]) = false
  ∧ ∃ first body m, files "g.txt" = Some (first :: body)
      ∧ unpack_ints int_decimal (String.words (strip_spaces first))
        = Some (n (mkGraph 3 false [[1]; [0]; []]), m).
Proof.
  assert (_read_graph_from_file ins_end strip_spaces String.words int_decimal
            files "g.txt" false
          = Returns (mkGraph 3 false [[1]; [0]; []])) as Hrun by reflexivity.
  split; [exact ins_end_perm|]. split; [exact Hrun|].
  exact (read_graph_valid ins_end strip_spaces String.words int_decimal files
           "g.txt" false _ ins_end_perm Hrun).
Defined.

Lemma read_graph_readable_witness :
  files "g.txt"
  = Some ("3 2" :: ["0 1"; ""; "1 2"; "this line is never read"])
  ∧ unpack_ints int_decimal (String.words (strip_spaces "3 2")) = Some (3, 2)
  ∧ Forall (readable strip_spaces String.words int_decimal)
      (take (Z.to_nat 2) ["0 1"; ""; "1 2"; "this line is never read"])
  ∧ omap (edge_of_line strip_spaces String.words int_decimal)
      (take (Z.to_nat 2) ["0 1"; ""; "1 2"; "this line is never read"])
    = [(0, 1)]
  ∧ _read_graph_from_file ins_end strip_spaces String.words int_decimal files
      "g.txt" true
    = lift (add_edges ins_end (Graph_init 3 true)
              (omap (edge_of_line strip_spaces String.words int_decimal)
                 (take (Z.to_nat 2)
                    ["0 1"; ""; "1 2"; "this line is never read"]))).
Proof.
  assert (files "g.txt"
          = Some ("3 2" :: ["0 1"; ""; "1 2"; "this line is never read"]))
    as Hfs by reflexivity.
  assert (unpack_ints int_decimal (String.words (strip_spaces "3 2"))
          = Some (3, 2)) as Hhdr by reflexivity.
  assert (Forall (readable strip_spaces String.words int_decimal)
            (take (Z.to_nat 2) ["0 1"; ""; "1 2"; "this line is never read"]))
    as Hok.
  { apply Forall_cons. split; [right; by eexists|].
    apply Forall_cons. split; [by left|]. apply Forall_nil_2. }
  split; [exact Hfs|]. split; [exact Hhdr|]. split; [exact Hok|].
  split; [reflexivity|].
  exact (read_graph_readable ins_end strip_spaces String.words int_decimal
           files "g.txt" true _ _ 3 2 Hfs Hhdr Hok).
Defined.

Lemma read_graph_bad_line_witness :
  files "bad.txt" = Some ("3 5" :: ["0 1"; "1 x"])
  ∧ unpack_ints int_decimal (String.words (strip_spaces "3 5")) = Some (3, 5)
  ∧ ["0 1"; "1 x"] !! 1%nat = Some "1 x" ∧ (1 < Z.to_nat 5)%nat
  ∧ Forall (readable strip_spaces String.words int_decimal)
      (take 1 ["0 1"; "1 x"])
  ∧ ¬ readable strip_spaces String.words int_decimal "1 x"
  ∧ _read_graph_from_file ins_end strip_spaces String.words int_decimal files
      "bad.txt" false
    = Throws (ValueError "Formato inválido na linha 3. Use: u v").
Proof.
  assert (files "bad.txt" = Some ("3 5" :: ["0 1"; "1 x"])) as Hfs
    by reflexivity.
  assert (unpack_ints int_decimal (String.words (strip_spaces "3 5"))
          = Some (3, 5)) as Hhdr by reflexivity.
  assert (["0 1"; "1 x"] !! 1%nat = Some "1 x") as Hl by reflexivity.
  assert (1 < Z.to_nat 5)%nat as Hk by lia.
  assert (Forall (readable strip_spaces String.words int_decimal)
            (take 1 ["0 1"; "1 x"])) as Hpre.
  { apply Forall_cons. split; [right; by eexists|]. apply Forall_nil_2. }
  assert (¬ readable strip_spaces String.words int_decimal "1 x") as Hbad.
  { intros [H|[x H]]; discriminate H. }
  split; [exact Hfs|]. split; [exact Hhdr|]. split; [exact Hl|].
  split; [exact Hk|]. split; [exact Hpre|]. split; [exact Hbad|].
  exact (read_graph_bad_line ins_end strip_spaces String.words int_decimal
           files "bad.txt" false _ _ 3 5 1%nat "1 x" Hfs Hhdr Hl Hk Hpre Hbad).
Defined.

Lemma read_graph_ignores_rest_witness :
  files "g.txt"
  = Some ("3 2" :: ["0 1"; ""; "1 2"; "this line is never read"])
  ∧ (λ _ : string, Some ["3 2"; "0 1"; ""]) "g.txt"
    = Some ("3 2" :: ["0 1"; ""])
  ∧ unpack_ints int_decimal (String.words (strip_spaces "3 2")) = Some (3, 2)
  ∧ take (Z.to_nat 2) ["0 1"; ""; "1 2"; "this line is never read"]
    = take (Z.to_nat 2) ["0 1"; ""]
  ∧ _read_graph_from_file ins_end strip_spaces String.words int_decimal files
      "g.txt" false
    = _read_graph_from_file ins_end strip_spaces String.words int_decimal
        (λ _, Some ["3 2"; "0 1"; ""]) "g.txt" false.
Proof.
  assert (files "g.txt"
          = Some ("3 2" :: ["0 1"; ""; "1 2"; "this line is never read"]))
    as Hfs by reflexivity.
  assert ((λ _ : string, Some ["3 2"; "0 1"; ""]) "g.txt"
          = Some ("3 2" :: ["0 1"; ""])) as Hfs' by reflexivity.
  assert (unpack_ints int_decimal (String.words (strip_spaces "3 2"))
          = Some (3, 2)) as Hhdr by reflexivity.
  assert (take (Z.to_nat 2) ["0 1"; ""; "1 2"; "this line is never read"]
          = take (Z.to_nat 2) ["0 1"; ""]) as Htake by reflexivity.
  split; [exact Hfs|]. split; [exact Hfs'|]. split; [exact Hhdr|].
  split; [exact Htake|].
  exact (read_graph_ignores_rest ins_end strip_spaces String.words int_decimal
           files (λ _, Some ["3 2"; "0 1"; ""]) "g.txt" false _ _ _ 3 2
           Hfs Hfs' Hhdr Htake).
Defined.

(** ** The command line in file mode *)

Section MainProofs.
Variable ins : Z → list Z → list Z.
Variable py_strip : string → string.
Variable py_split : string → list string.
Variable py_int : string → option Z.
Variable fs : string → option (list string).
Variable self_test_run demo_run : list event * cli_res unit.
Hypothesis ins_perm : ∀ x s, x ∉ s → ins x s ≡ₚ x :: s.

Local Abbreviation read :=
  (_read_graph_from_file ins py_strip py_split py_int fs).
Local Abbreviation run :=
  (main ins py_strip py_split py_int fs self_test_run demo_run).

Lemma main_file_mode fuel args filepath :
  arg_self_test args = false → arg_file args = Some filepath →
  filepath ≠ "" →
  (∀ g, read filepath (arg_directed args) = Returns g →
     (Z.to_nat (n g) ≤ fuel)%nat) →
  ((arg_directed args = arg_undirected args
    ∨ ∃ e, read filepath (arg_directed args) = Throws e)
   ∧ ∃ line, run fuel args = ([Stderr line], Throws (SystemExit 1)))
  ∨ (arg_directed args ≠ arg_undirected args
     ∧ ∃ g, read filepath (arg_directed args) = Returns g
       ∧ ((run fuel args = ([Stdout "NO HAMILTONIAN PATH"], Returns tt)
           ∧ ∀ q, ¬ hamiltonian g q)
          ∨ ∃ p, run fuel args
                 = ([Stdout (String.concat " " (pretty <$> p))], Returns tt)
              ∧ hamiltonian g p)).
Proof.
  intros Htest Hfile Hname Hfuel. unfold main. rewrite Htest, Hfile.
  rewrite bool_decide_eq_false_2 by done.
  destruct (arg_directed args) eqn:Hd, (arg_undirected args) eqn:Hu; simpl.
  - left. split; [by left|]. eauto.
  - destruct (read_graph_outcomes ins py_strip py_split py_int fs filepath true)
      as [[_ Hrun]|[_ [[g Hrun]|[msg Hrun]]]]; rewrite Hrun.
    + left. split; [right|]; eauto.
    + right. split; [done|]. exists g. split; [done|].
      destruct (read_graph_valid ins py_strip py_split py_int fs filepath
                  true g ins_perm Hrun) as ([Hwf _ _ _] & _).
      destruct (find_hamiltonian_path_correct fuel g Hwf (Hfuel g Hrun))
        as (r & -> & Hv).
      destruct r as [p|]; [right|left]; [|done]. exists p. by destruct Hv.
    + left. split; [right|]; eauto.
  - destruct (read_graph_outcomes ins py_strip py_split py_int fs filepath false)
      as [[_ Hrun]|[_ [[g Hrun]|[msg Hrun]]]]; rewrite Hrun.
    + left. split; [right|]; eauto.
    + right. split; [done|]. exists g. split; [done|].
      destruct (read_graph_valid ins py_strip py_split py_int fs filepath
                  false g ins_perm Hrun) as ([Hwf _ _ _] & _).
      destruct (find_hamiltonian_path_correct fuel g Hwf (Hfuel g Hrun))
        as (r & -> & Hv).
      destruct r as [p|]; [right|left]; [|done]. exists p. by destruct Hv.
    + left. split; [right|]; eauto.
  - left. split; [by left|]. eauto.
Qed.


(** X19 — what [main] prints is right: in file mode, a line on standard
    output is either [NO HAMILTONIAN PATH], and then the graph loaded
    from the file has no Hamiltonian path, or the vertices of a path
    separated by blanks, and then [is_hamiltonian_path] accepts that path
    on the loaded graph. *)
Theorem main_output_correct fuel args filepath line rest outcome :
  arg_self_test args = false → arg_file args = Some filepath →
  filepath ≠ "" →
  (∀ g, _read_graph_from_file ins py_strip py_split py_int fs filepath
          (arg_directed args) = Returns g →
     (Z.to_nat (n g) ≤ fuel)%nat) →
  main ins py_strip py_split py_int fs self_test_run demo_run fuel args
  = (Stdout line :: rest, outcome) →
  rest = [] ∧ outcome = Returns tt
  ∧ ∃ g, _read_graph_from_file ins py_strip py_split py_int fs filepath
           (arg_directed args) = Returns g
    ∧ ((line = "NO HAMILTONIAN PATH"
        ∧ ∀ p, is_hamiltonian_path g p ≠ Ok true)
       ∨ ∃ p, line = String.concat " " (pretty <$> p)
           ∧ is_hamiltonian_path g p = Ok true).
Proof.
  intros Htest Hfile Hname Hfuel Hout.
  destruct (main_file_mode fuel args filepath Htest Hfile Hname Hfuel)
    as [[_ [l Hrun]]|(_ & g & Hrun & Hcase)].
  { rewrite Hrun in Hout. done. }
  destruct (read_graph_valid ins py_strip py_split py_int fs filepath
              _ g ins_perm Hrun) as ([Hwf _ _ _] & _).
  destruct Hcase as [[Hrun' Hnone]|(p & Hrun' & Hp)];
    rewrite Hrun' in Hout; injection Hout as <- <- <-.
  - split; [done|]. split; [done|]. exists g. split; [done|]. left.
    split; [done|]. intros p Hp%is_hamiltonian_path_iff; [|done].
    by destruct (Hnone p).
  - split; [done|]. split; [done|]. exists g. split; [done|]. right.
    exists p. split; [done|]. by apply is_hamiltonian_path_iff.
Qed.
End MainProofs.


Lemma main_output_correct_witness :
  (∀ x s, x ∉ s → ins_end x s ≡ₚ x :: s)
  ∧ arg_self_test cli_chain = false ∧ arg_file cli_chain = Some "chain.txt"
  ∧ "chain.txt" ≠ ""
  ∧ (∀ g, _read_graph_from_file ins_end strip_spaces String.words int_decimal
            files "chain.txt" (arg_directed cli_chain) = Returns g →
       (Z.to_nat (n g) ≤ 3)%nat)
  ∧ main ins_end strip_spaces String.words int_decimal files ([], Returns tt)
      ([], Returns tt) 3 cli_chain
    = ([Stdout "2 0 1"], Returns tt)
  ∧ [] = ([] : list event) ∧ Returns tt = Returns tt
  ∧ ∃ g, _read_graph_from_file ins_end strip_spaces String.words int_decimal
           files "chain.txt" (arg_directed cli_chain) = Returns g
    ∧ (("2 0 1" = "NO HAMILTONIAN PATH"
        ∧ ∀ p, is_hamiltonian_path g p ≠ Ok true)
       ∨ ∃ p, "2 0 1" = String.concat " " (pretty <$> p)
           ∧ is_hamiltonian_path g p = Ok true).
Proof.
  assert (arg_self_test cli_chain = false) as Htest by reflexivity.
  assert (arg_file cli_chain = Some "chain.txt") as Hfile by reflexivity.
  assert ("chain.txt" ≠ "") as Hname by discriminate.
  assert (∀ g, _read_graph_from_file ins_end strip_spaces String.words
                 int_decimal files "chain.txt" (arg_directed cli_chain)
               = Returns g → (Z.to_nat (n g) ≤ 3)%nat) as Hfuel.
  { intros g Hg.
    assert (_read_graph_from_file ins_end strip_spaces String.words
              int_decimal files "chain.txt" (arg_directed cli_chain)
            = Returns chain) as Hrun by reflexivity.
    rewrite Hrun in Hg. injection Hg as <-. simpl. lia. }
  assert (main ins_end strip_spaces String.words int_decimal files
            ([], Returns tt) ([], Returns tt) 3 cli_chain
          = ([Stdout "2 0 1"], Returns tt)) as Hout by reflexivity.
  split; [exact ins_end_perm|]. split; [exact Htest|]. split; [exact Hfile|].
  split; [exact Hname|]. split; [exact Hfuel|]. split; [exact Hout|].
  exact (main_output_correct ins_end strip_spaces String.words int_decimal
           files ([], Returns tt) ([], Returns tt) ins_end_perm 3 cli_chain
           "chain.txt" "2 0 1" [] (Returns tt) Htest Hfile Hname Hfuel Hout).
Defined.
